(** * xv6 lock lab: buffer cache (kernel/bio.c) and page allocator (kernel/kalloc.c)

    A shallow embedding of the two files.  Kernel code is written in a small
    state-and-outcome monad: a computation takes the machine state and gives
    back an outcome together with the state reached at that point, so that a
    [panic] keeps the state in which it was raised.  Calls to collaborators
    that only matter through their order (spinlocks, memset, the disk driver)
    are appended to an event trace kept in the state. *)

From stdpp Require Import base option list strings gmap.
From Stdlib Require Import ZArith Lia.

(** ** Outcomes and the kernel monad *)

Inductive outcome (A : Type) : Type :=
| Ret (a : A)            (* the function returned [a] *)
| Panic (msg : string)   (* panic(msg): the kernel stops *)
| Fault                  (* an array was indexed out of its bounds *)
| Blocked (chan : nat).  (* the caller sleeps on a sleep-lock that is taken *)
Arguments Ret {A} a.
Arguments Panic {A} msg.
Arguments Fault {A}.
Arguments Blocked {A} chan.

Definition M (St A : Type) : Type := St → outcome A * St.

Definition ret {St A} (a : A) : M St A := λ s, (Ret a, s).

Definition bind {St A B} (m : M St A) (k : A → M St B) : M St B :=
  λ s, match m s with
       | (Ret a, s') => k a s'
       | (Panic msg, s') => (Panic msg, s')
       | (Fault, s') => (Fault, s')
       | (Blocked c, s') => (Blocked c, s')
       end.

Definition panic {St A} (msg : string) : M St A := λ s, (Panic msg, s).
Definition fault {St A} : M St A := λ s, (Fault, s).
Definition gets {St A} (f : St → A) : M St A := λ s, (Ret (f s), s).
Definition modify {St} (f : St → St) : M St unit := λ s, (Ret tt, f s).

Declare Scope kern_scope.
Delimit Scope kern_scope with kern.
Notation "x <- m ;; k" := (bind m (λ x, k))
  (at level 100, m at next level, right associativity) : kern_scope.
Notation "m ;;; k" := (bind m (λ _, k))
  (at level 100, right associativity) : kern_scope.
Open Scope kern_scope.

(** [for(int i = lo; i < lo + n; ++i) body], where the body may leave the
    function early by returning [Some a]. *)
Fixpoint for_range {St A} (lo n : nat) (body : nat → M St (option A))
  : M St (option A) :=
  match n with
  | O => ret None
  | S n' => r <- body lo ;;
            match r with
            | Some a => ret (Some a)
            | None => for_range (S lo) n' body
            end
  end.

(** The state after [n] iterations that all fell through, each iteration [j]
    changing the state by [skip j]. *)
Fixpoint skips {St} (skip : nat → St → St) (lo n : nat) (s : St) : St :=
  match n with
  | O => s
  | S n' => skips skip (S lo) n' (skip lo s)
  end.


(** C integer conversions. *)
Definition wrap32 (z : Z) : Z := (z mod 2 ^ 32)%Z.
Definition wrap64 (z : Z) : Z := (z mod 2 ^ 64)%Z.
Definition to_int (z : Z) : Z := ((z + 2 ^ 31) mod 2 ^ 32 - 2 ^ 31)%Z.

(** ** kernel/kalloc.c: the physical page allocator *)

Module Kalloc.
Local Open Scope Z_scope.

(** Calls whose order matters: interrupt masking around [cpuid], the
    spinlock of [kmem[i]], a write to [kmem[i].freelist], and the junk fill
    of a page. *)
Inductive event : Type :=
| EPushOff
| EPopOff
| EAcquire (i : nat)
| ERelease (i : nat)
| EStore (i : nat)
| EMemset (pa : Z) (c : Z).

(** [kmem[NCPU]]: a free list is the list of the page addresses linked
    through [run.next], head first; the null pointer is the empty list.
    The links live in the pages themselves, so the lists stand for the
    memory as long as a page is given to [kfree] only while it is on no
    list: what is proved about the lists [kfree] leaves is proved for such
    a page.  [tp] is what [cpuid()] reads. *)
Record state : Type := mkState {
  kmem : list (list Z);
  tp : Z;
  trace : list event
}.

Definition log (e : event) : M state unit :=
  modify (λ s, mkState (kmem s) (tp s) (trace s ++ [e])).
Definition set_freelist (i : nat) (l : list Z) : M state unit :=
  modify (λ s, mkState (<[i := l]> (kmem s)) (tp s) (trace s ++ [EStore i])).
Definition set_tp (c : Z) (s : state) : state :=
  mkState (kmem s) c (trace s).

Section kalloc.
(** memlayout.h, riscv.h, param.h and the linker script are not part of
    the sources: their constants are parameters.  [end_] is the address of
    [end], the first address after the kernel. *)
Variables (PGSIZE NMEM PHYSTOP end_ : Z) (NCPU : nat).

(** Modelled from the spec: PGROUNDUP of riscv.h is missing; it rounds an
    address up to the next page boundary. *)
Definition PGROUNDUP (a : Z) : Z := (a + PGSIZE - 1) / PGSIZE * PGSIZE.

(** [kmem[i]] for an [int i]: inside the array or a fault. *)
Definition index (i : Z) : M state nat :=
  if bool_decide (0 ≤ i < Z.of_nat NCPU) then ret (Z.to_nat i) else fault.

Definition freelist (i : nat) : M state (list Z) :=
  λ s, match kmem s !! i with
       | Some l => (Ret l, s)
       | None => (Fault, s)
       end.

(** The test at the head of [kfree]. *)
Definition kfree_rejects (pa : Z) : bool :=
  negb (pa mod PGSIZE =? 0) || (pa <? end_) || (PHYSTOP <=? pa).

(** [volatile int i = ((uint64)((char* )pa - end))/tmp] *)
Definition owner (pa : Z) : Z := to_int (wrap64 (pa - end_) / wrap64 NMEM).

Definition kfree (pa : Z) : M state unit :=
  if kfree_rejects pa then panic "kfree" else
  log (EMemset pa 1) ;;;
  i <- index (owner pa) ;;
  log (EAcquire i) ;;;
  l <- freelist i ;;
  set_freelist i (pa :: l) ;;;
  log (ERelease i).

(** [for(; p + PGSIZE <= pa_end; p += PGSIZE) kfree(p)], by the number of
    iterations left. *)
Fixpoint free_pages (p : Z) (n : nat) : M state unit :=
  match n with
  | O => ret tt
  | S n' => kfree p ;;; free_pages (p + PGSIZE) n'
  end.

Definition freerange (pa_start pa_end : Z) : M state unit :=
  let p := PGROUNDUP pa_start in
  free_pages p (Z.to_nat ((pa_end - p) / PGSIZE)).

Fixpoint kinit_from (i : nat) (n : nat) : M state unit :=
  match n with
  | O => ret tt
  | S n' => let begin := end_ + NMEM * Z.of_nat i in
            freerange begin (begin + NMEM) ;;;
            kinit_from (S i) n'
  end.

Definition kinit : M state unit := kinit_from 0 NCPU.

(** The fallback loop of [kalloc] over [j = 0 .. NCPU-1]. *)
Definition steal_body (j : nat) : M state (option Z) :=
  log (EAcquire j) ;;;
  l <- freelist j ;;
  match l with
  | r :: l' => set_freelist j l' ;;; log (ERelease j) ;;; ret (Some r)
  | [] => log (ERelease j) ;;; ret None
  end.

Definition kalloc : M state (option Z) :=
  log EPushOff ;;;
  c <- gets tp ;;
  log EPopOff ;;;
  i <- index c ;;
  log (EAcquire i) ;;;
  l <- freelist i ;;
  r <- match l with
       | r :: l' => set_freelist i l' ;;; ret (Some r)
       | [] => ret None
       end ;;
  log (ERelease i) ;;;
  r <- match r with
       | Some r => ret (Some r)
       | None => for_range 0 NCPU steal_body
       end ;;
  match r with
  | Some p => log (EMemset p 5)
  | None => ret tt
  end ;;;
  ret r.

(** The boot state: [kmem] lies in zero-initialised memory. *)
Definition boot (c : Z) : state := mkState (replicate NCPU []) c [].
End kalloc.

End Kalloc.

(** ** kernel/bio.c: the buffer cache *)

Module Bio.
Local Open Scope Z_scope.

(** [bcache.lock] and the bucket locks [bcache.bucket[k].lock]. *)
Inductive spinlock : Type :=
| LBcache
| LBucket (k : nat).

Inductive event : Type :=
| EAcquire (l : spinlock)
| ERelease (l : spinlock)
| EAcquireSleep (b : nat)
| EReleaseSleep (b : nat)
| EDiskRW (b : nat) (write : bool).

(** Modelled from the spec: buf.h and sleeplock.h are missing.  [struct buf]
    has the identity of the block, the valid flag, the reference count, the
    time of the last use, the payload and a sleep-lock; the sleep-lock is
    held by at most one process at a time, and [lock] is the pid of the
    holder, if any. *)
Record buf : Type := mkBuf {
  valid : bool;
  dev : Z;
  blockno : Z;
  lock : option Z;
  refcnt : Z;
  time : Z;
  data : list Z
}.

Definition with_valid (v : bool) (e : buf) : buf :=
  mkBuf v (dev e) (blockno e) (lock e) (refcnt e) (time e) (data e).
Definition with_dev (d : Z) (e : buf) : buf :=
  mkBuf (valid e) d (blockno e) (lock e) (refcnt e) (time e) (data e).
Definition with_blockno (n : Z) (e : buf) : buf :=
  mkBuf (valid e) (dev e) n (lock e) (refcnt e) (time e) (data e).
Definition with_lock (l : option Z) (e : buf) : buf :=
  mkBuf (valid e) (dev e) (blockno e) l (refcnt e) (time e) (data e).
Definition with_refcnt (r : Z) (e : buf) : buf :=
  mkBuf (valid e) (dev e) (blockno e) (lock e) r (time e) (data e).
Definition with_time (t : Z) (e : buf) : buf :=
  mkBuf (valid e) (dev e) (blockno e) (lock e) (refcnt e) t (data e).
Definition with_data (d : list Z) (e : buf) : buf :=
  mkBuf (valid e) (dev e) (blockno e) (lock e) (refcnt e) (time e) d.

(** [bcache] and what the file reads from its environment: the [ticks]
    counter, the pid of the calling process, and the disk behind
    [virtio_disk_rw].  A pointer to a buffer is its index in [bcache.buf]. *)
Record state : Type := mkState {
  bucket : list nat;
  bufs : list buf;
  evict : Z;
  ticks : Z;
  pid : Z;
  disk : gmap (Z * Z) (list Z);
  trace : list event
}.

Definition put_bucket (x : list nat) (s : state) : state :=
  mkState x (bufs s) (evict s) (ticks s) (pid s) (disk s) (trace s).
Definition put_bufs (x : list buf) (s : state) : state :=
  mkState (bucket s) x (evict s) (ticks s) (pid s) (disk s) (trace s).
Definition put_evict (x : Z) (s : state) : state :=
  mkState (bucket s) (bufs s) x (ticks s) (pid s) (disk s) (trace s).
Definition put_disk (x : gmap (Z * Z) (list Z)) (s : state) : state :=
  mkState (bucket s) (bufs s) (evict s) (ticks s) (pid s) x (trace s).
Definition put_trace (x : list event) (s : state) : state :=
  mkState (bucket s) (bufs s) (evict s) (ticks s) (pid s) (disk s) x.

Definition log (e : event) : M state unit :=
  modify (λ s, put_trace (trace s ++ [e]) s).
Definition acquire (l : spinlock) : M state unit := log (EAcquire l).
Definition release (l : spinlock) : M state unit := log (ERelease l).

(** [bcache.buf[b]], read and written in place. *)
Definition get_buf (b : nat) : M state buf :=
  λ s, match bufs s !! b with
       | Some e => (Ret e, s)
       | None => (Fault, s)
       end.
Definition upd_buf (b : nat) (f : buf → buf) : M state unit :=
  e <- get_buf b ;; modify (λ s, put_bufs (<[b := f e]> (bufs s)) s).

(** [bcache.bucket[k].buf] *)
Definition get_bucket (k : nat) : M state nat :=
  λ s, match bucket s !! k with
       | Some b => (Ret b, s)
       | None => (Fault, s)
       end.
Definition set_bucket (k b : nat) : M state unit :=
  _ <- get_bucket k ;; modify (λ s, put_bucket (<[k := b]> (bucket s)) s).

(** Modelled from the spec: sleeplock.c is missing.  [acquiresleep] takes a
    free lock for the caller and otherwise leaves the caller waiting. *)
Definition acquiresleep (b : nat) : M state unit :=
  e <- get_buf b ;;
  match lock e with
  | None => p <- gets pid ;; upd_buf b (with_lock (Some p)) ;;;
            log (EAcquireSleep b)
  | Some _ => λ s, (Blocked b, s)
  end.
(** Modelled from the spec: sleeplock.c is missing.  [releasesleep] gives
    the lock up. *)
Definition releasesleep (b : nat) : M state unit :=
  upd_buf b (with_lock None) ;;; log (EReleaseSleep b).
(** Modelled from the spec: sleeplock.c is missing.  [holdingsleep] tells
    whether the caller is the holder of the lock. *)
Definition holdingsleep (b : nat) : M state bool :=
  e <- get_buf b ;; p <- gets pid ;; ret (bool_decide (lock e = Some p)).

(** Modelled from the spec: the disk driver is missing.
    [virtio_disk_rw(b, 0)] fills the payload of [b] from the block
    [(dev, blockno)] of the disk, [virtio_disk_rw(b, 1)] writes it there. *)
Definition virtio_disk_rw (b : nat) (write : bool) : M state unit :=
  e <- get_buf b ;;
  (if write
   then modify (λ s, put_disk (<[(dev e, blockno e) := data e]> (disk s)) s)
   else d <- gets disk ;;
        upd_buf b (with_data (default [] (d !! (dev e, blockno e))))) ;;;
  log (EDiskRW b write).

Fixpoint for_each (lo n : nat) (body : nat → M state unit) : M state unit :=
  match n with
  | O => ret tt
  | S n' => body lo ;;; for_each (S lo) n' body
  end.

Section bio.
(** param.h is not part of the sources: the sizes of the two arrays are
    parameters. *)
Variables (NBUF NBUCKET : nat).

Definition binit : M state unit :=
  modify (put_evict 0) ;;;
  for_each 0 NBUCKET (λ i, set_bucket i i) ;;;
  for_each 0 NBUF (λ i, upd_buf i (with_lock None) ;;;
                        upd_buf i (with_time 0)).

Definition same_block (d n : Z) (e : buf) : bool :=
  (dev e =? d) && (blockno e =? n).

(** First loop of [bget]: the block is looked for in the buckets. *)
Definition bget_bucket (d n : Z) (i : nat) : M state (option nat) :=
  acquire (LBucket i) ;;;
  b <- get_bucket i ;;
  e <- get_buf b ;;
  if same_block d n e then
    upd_buf b (λ e, with_refcnt (wrap32 (refcnt e + 1)) e) ;;;
    t <- gets ticks ;;
    upd_buf b (with_time t) ;;;
    release (LBucket i) ;;;
    acquiresleep b ;;;
    ret (Some b)
  else
    release (LBucket i) ;;; ret None.

(** Second loop: the whole array, under [bcache.lock]. *)
Definition bget_scan (d n : Z) (i : nat) : M state (option nat) :=
  e <- get_buf i ;;
  if same_block d n e then
    upd_buf i (λ e, with_refcnt (wrap32 (refcnt e + 1)) e) ;;;
    t <- gets ticks ;;
    upd_buf i (with_time t) ;;;
    acquire (LBucket (i mod NBUCKET)) ;;;
    set_bucket (i mod NBUCKET) i ;;;
    release (LBucket (i mod NBUCKET)) ;;;
    release LBcache ;;;
    acquiresleep i ;;;
    ret (Some i)
  else ret None.

(** Third loop: an unused buffer is taken over. *)
Definition bget_recycle (d n : Z) (i : nat) : M state (option nat) :=
  e <- get_buf i ;;
  if refcnt e =? 0 then
    upd_buf i (with_dev d) ;;;
    upd_buf i (with_blockno n) ;;;
    upd_buf i (with_valid false) ;;;
    upd_buf i (with_refcnt 1) ;;;
    t <- gets ticks ;;
    upd_buf i (with_time t) ;;;
    release LBcache ;;;
    acquiresleep i ;;;
    ret (Some i)
  else ret None.

Definition bget (d n : Z) : M state nat :=
  r <- for_range 0 NBUCKET (bget_bucket d n) ;;
  match r with
  | Some b => ret b
  | None =>
    acquire LBcache ;;;
    r <- for_range 0 NBUF (bget_scan d n) ;;
    match r with
    | Some b => ret b
    | None =>
      r <- for_range 0 NBUF (bget_recycle d n) ;;
      match r with
      | Some b => ret b
      | None => panic "bget: no buffers"
      end
    end
  end.

Definition bread (d n : Z) : M state nat :=
  b <- bget d n ;;
  e <- get_buf b ;;
  (if negb (valid e)
   then virtio_disk_rw b false ;;; upd_buf b (with_valid true)
   else ret tt) ;;;
  ret b.

Definition bwrite (b : nat) : M state unit :=
  h <- holdingsleep b ;;
  if negb h then panic "bwrite" else
  virtio_disk_rw b true.

Definition brelse (b : nat) : M state unit :=
  h <- holdingsleep b ;;
  if negb h then panic "brelse" else
  releasesleep b ;;;
  acquire LBcache ;;;
  upd_buf b (λ e, with_refcnt (wrap32 (refcnt e - 1)) e) ;;;
  e <- get_buf b ;;
  (if refcnt e =? 0 then upd_buf b (with_time 0) else ret tt) ;;;
  release LBcache.

Definition bpin (b : nat) : M state unit :=
  acquire LBcache ;;;
  upd_buf b (λ e, with_refcnt (wrap32 (refcnt e + 1)) e) ;;;
  release LBcache.

Definition bunpin (b : nat) : M state unit :=
  acquire LBcache ;;;
  upd_buf b (λ e, with_refcnt (wrap32 (refcnt e - 1)) e) ;;;
  release LBcache.

(** [bcache] before [binit]: zero-initialised memory. *)
Definition zero_buf : buf := mkBuf false 0 0 None 0 0 [].
Definition boot (t p : Z) (d : gmap (Z * Z) (list Z)) : state :=
  mkState (replicate NBUCKET O) (replicate NBUF zero_buf) 0 t p d [].
End bio.

End Bio.
Section loops.
Context {St A : Type}.
Implicit Types (body : nat → M St (option A)) (skip : nat → St → St).

Lemma for_range_skip body skip (Inv : St → Prop) n : ∀ lo s,
  Inv s →
  (∀ j s0, lo ≤ j < lo + n → Inv s0 →
     body j s0 = (Ret None, skip j s0) ∧ Inv (skip j s0)) →
  for_range lo n body s = (Ret None, skips skip lo n s) ∧
  Inv (skips skip lo n s).
Proof.
  induction n as [|n IH]; intros lo s Hs Hb; simpl; [done|].
  destruct (Hb lo s) as [E HI]; [lia|done|].
  unfold bind. rewrite E. apply IH; [done|].
  intros j s0 Hj. apply Hb. lia.
Qed.

Lemma for_range_app body a b : ∀ lo s,
  for_range lo (a + b) body s =
  match for_range lo a body s with
  | (Ret None, s') => for_range (lo + a) b body s'
  | other => other
  end.
Proof.
  induction a as [|a IH]; intros lo s; simpl.
  - by rewrite Nat.add_0_r.
  - unfold bind. destruct (body lo s) as [[[x|]|msg| |c] s']; try done.
    rewrite IH. by replace (lo + S a) with (S lo + a) by lia.
Qed.

(** Iterations [lo .. k-1] fall through and [k] is inside the range: the
    loop is iteration [k] run in the state the skipped ones leave, followed
    by the rest of the range. *)
Lemma for_range_reach body skip (Inv : St → Prop) lo n k s :
  lo ≤ k < lo + n →
  Inv s →
  (∀ j s0, lo ≤ j < k → Inv s0 →
     body j s0 = (Ret None, skip j s0) ∧ Inv (skip j s0)) →
  for_range lo n body s =
    for_range k (lo + n - k) body (skips skip lo (k - lo) s) ∧
  Inv (skips skip lo (k - lo) s).
Proof.
  intros Hk Hs Hb.
  assert (n = (k - lo) + (lo + n - k)) as Hn by lia.
  rewrite Hn at 1. rewrite for_range_app.
  destruct (for_range_skip body skip Inv (k - lo) lo s) as [E HI]; [done| |].
  { intros j s0 Hj. apply Hb. lia. }
  rewrite E. replace (lo + (k - lo)) with k by lia. done.
Qed.
End loops.

Lemma to_int_small z : (0 ≤ z < 2 ^ 31)%Z → to_int z = z.
Proof. intros H. unfold to_int. rewrite Z.mod_small; lia. Qed.

Lemma wrap64_small z : (0 ≤ z < 2 ^ 64)%Z → wrap64 z = z.
Proof. intros H. unfold wrap64. by rewrite Z.mod_small. Qed.

Lemma wrap32_small z : (0 ≤ z < 2 ^ 32)%Z → wrap32 z = z.
Proof. intros H. unfold wrap32. by rewrite Z.mod_small. Qed.

(** ** Properties of the page allocator *)

Module KallocSpec.
Import Kalloc.
Local Open Scope Z_scope.

Ltac run := cbv [bind log set_freelist modify gets ret fault panic]; simpl.

Section spec.
Variables (PGSIZE NMEM PHYSTOP end_ : Z) (NCPU : nat).

Abbreviation kfree := (Kalloc.kfree PGSIZE NMEM PHYSTOP end_ NCPU).
Abbreviation kfree_rejects := (Kalloc.kfree_rejects PGSIZE PHYSTOP end_).
Abbreviation owner := (Kalloc.owner NMEM end_).
Abbreviation kalloc := (Kalloc.kalloc NCPU).
Abbreviation index := (Kalloc.index NCPU).

(** The array has its declared size and [cpuid()] names one of the cores. *)
Definition wf (s : state) : Prop :=
  length (kmem s) = NCPU ∧ 0 ≤ tp s < Z.of_nat NCPU.

(** Every page on a free list is one [kfree] accepts, and it is on the list
    of the core its address belongs to. *)
Definition owned (s : state) : Prop :=
  ∀ (j : nat) l p, kmem s !! j = Some l → p ∈ l →
    kfree_rejects p = false ∧ owner p = Z.of_nat j.

Lemma kfree_rejects_false pa :
  kfree_rejects pa = false ↔ pa mod PGSIZE = 0 ∧ end_ ≤ pa < PHYSTOP.
Proof.
  unfold Kalloc.kfree_rejects.
  rewrite !orb_false_iff, negb_false_iff, Z.eqb_eq, Z.ltb_ge, Z.leb_gt. lia.
Qed.

Lemma owner_quot pa :
  0 < NMEM < 2 ^ 64 → end_ ≤ pa → pa - end_ < 2 ^ 64 →
  (pa - end_) / NMEM < 2 ^ 31 →
  owner pa = (pa - end_) / NMEM.
Proof.
  intros HN Hlo Hhi Hq. unfold Kalloc.owner.
  rewrite !wrap64_small by lia.
  apply to_int_small. split; [apply Z.div_pos; lia | done].
Qed.

Lemma index_in (i : nat) (s : state) :
  (i < NCPU)%nat → index (Z.of_nat i) s = (Ret i, s).
Proof.
  intros H. unfold Kalloc.index. rewrite bool_decide_true by lia.
  by rewrite Nat2Z.id.
Qed.

Lemma index_ok (i : Z) (s : state) :
  0 ≤ i < Z.of_nat NCPU → index i s = (Ret (Z.to_nat i), s).
Proof. intros H. unfold Kalloc.index. by rewrite bool_decide_true. Qed.

Lemma index_out (i : Z) (s : state) :
  ¬ (0 ≤ i < Z.of_nat NCPU) → index i s = (Fault, s).
Proof. intros H. unfold Kalloc.index. by rewrite bool_decide_false. Qed.

Lemma kfree_run pa (i : nat) l s :
  kfree_rejects pa = false → owner pa = Z.of_nat i → (i < NCPU)%nat →
  kmem s !! i = Some l →
  kfree pa s =
    (Ret tt, mkState (<[i := pa :: l]> (kmem s)) (tp s)
               (trace s ++ [EMemset pa 1; EAcquire i; EStore i; ERelease i])).
Proof.
  intros Hv Ho Hi Hl. unfold Kalloc.kfree. rewrite Hv, Ho.
  run. rewrite index_in by done.
  unfold freelist. simpl. rewrite Hl. simpl. by rewrite <- !app_assoc.
Qed.

Definition idle (j : nat) (s : state) : state :=
  mkState (kmem s) (tp s) (trace s ++ [EAcquire j; ERelease j]).

Lemma steal_body_empty j s :
  kmem s !! j = Some [] → steal_body j s = (Ret None, idle j s).
Proof.
  intros H. unfold steal_body, freelist. run. rewrite H. simpl.
  unfold idle. by rewrite <- app_assoc.
Qed.

Lemma steal_all_empty s :
  length (kmem s) = NCPU → Forall (λ l, l = []) (kmem s) →
  ∃ s', for_range 0 NCPU steal_body s = (Ret None, s') ∧
        kmem s' = kmem s ∧ tp s' = tp s.
Proof.
  intros Hlen Hall.
  destruct (for_range_skip steal_body idle
              (λ s0, kmem s0 = kmem s ∧ tp s0 = tp s) NCPU 0%nat s) as [E I].
  - done.
  - intros j s0 Hj [Hk Ht]. split; [|done].
    apply steal_body_empty. rewrite Hk.
    destruct (lookup_lt_is_Some_2 (kmem s) j) as [l Hl]; [lia|].
    rewrite Hl. f_equal. by eapply (Forall_lookup_1 _ _ _ _ Hall Hl).
  - eauto.
Qed.

Lemma steal_first (j : nat) p l' s :
  (j < NCPU)%nat → kmem s !! j = Some (p :: l') →
  (∀ j', (j' < j)%nat → kmem s !! j' = Some []) →
  ∃ s', for_range 0 NCPU steal_body s = (Ret (Some p), s') ∧
        kmem s' = <[j := l']> (kmem s) ∧ tp s' = tp s.
Proof.
  intros Hj Hl Hlow.
  destruct (for_range_reach steal_body idle
              (λ s0, kmem s0 = kmem s ∧ tp s0 = tp s) 0%nat NCPU j s)
    as [E [Hk Ht]].
  - lia.
  - done.
  - intros i s0 Hi [Hk Ht]. split; [|done].
    apply steal_body_empty. rewrite Hk. apply Hlow. lia.
  - rewrite E. destruct (0 + NCPU - j)%nat as [|m] eqn:Hm; [lia|].
    simpl. unfold steal_body, freelist. run. rewrite Hk, Hl.
    eexists. split; [done|]. done.
Qed.

Lemma kalloc_local (c : nat) p l' s :
  (c < NCPU)%nat → tp s = Z.of_nat c → kmem s !! c = Some (p :: l') →
  ∃ s', kalloc s = (Ret (Some p), s') ∧
        kmem s' = <[c := l']> (kmem s) ∧ tp s' = tp s.
Proof.
  intros Hc Ht Hl. unfold Kalloc.kalloc. run. rewrite Ht, index_in by done.
  unfold freelist. simpl. rewrite Hl. simpl. eauto.
Qed.

(** What [kalloc] does, case by case: it always returns; a page comes from
    the caller's own list or, that list being empty, from the first list in
    index order that has one. *)
Lemma kalloc_cases s :
  wf s →
  ∃ r s', kalloc s = (Ret r, s') ∧ tp s' = tp s ∧
    ((r = None ∧ Forall (λ l, l = []) (kmem s) ∧ kmem s' = kmem s) ∨
     (∃ (j : nat) p l',
        r = Some p ∧ kmem s !! j = Some (p :: l') ∧
        kmem s' = <[j := l']> (kmem s) ∧
        (Z.of_nat j = tp s ∨
         (kmem s !! Z.to_nat (tp s) = Some [] ∧
          ∀ j', (j' < j)%nat → kmem s !! j' = Some [])))).
Proof.
  intros [Hlen Htp].
  destruct (lookup_lt_is_Some_2 (kmem s) (Z.to_nat (tp s))) as [l Hl]; [lia|].
  destruct l as [|p l'].
  - unfold Kalloc.kalloc. run.
    rewrite index_ok by done. unfold freelist. simpl. rewrite Hl. simpl.
    set (s1 := mkState _ _ _).
    destruct (list_find (λ l, l ≠ []) (kmem s)) as [[j x]|] eqn:Hf.
    + apply list_find_Some in Hf as (Hj & Hx & Hlow).
      destruct x as [|q x']; [done|].
      destruct (steal_first j q x' s1) as (s' & E & Hk & Ht).
      * apply lookup_lt_Some in Hj. lia.
      * done.
      * intros j' Hj'.
        destruct (lookup_lt_is_Some_2 (kmem s) j') as [y Hy].
        { apply lookup_lt_Some in Hj. lia. }
        simpl. rewrite Hy. f_equal.
        destruct y; [done|]. exfalso. by eapply Hlow.
      * rewrite E. simpl. do 2 eexists. split; [done|]. simpl.
        split; [done|]. right. exists j, q, x'. repeat split; try done.
        right. split; [done|]. intros j' Hj'.
        destruct (lookup_lt_is_Some_2 (kmem s) j') as [y Hy].
        { apply lookup_lt_Some in Hj. lia. }
        rewrite Hy. f_equal. destruct y; [done|]. exfalso. by eapply Hlow.
    + apply list_find_None in Hf.
      assert (Forall (λ l0 : list Z, l0 = []) (kmem s)) as Hall.
      { eapply Forall_impl; [exact Hf|]. intros [|? ?] Hn; [done|].
        exfalso. by apply Hn. }
      destruct (steal_all_empty s1) as (s' & E & Hk & Ht); [done|done|].
      rewrite E. simpl. do 2 eexists. split; [done|]. split; [done|].
      left. done.
  - destruct (kalloc_local (Z.to_nat (tp s)) p l' s) as (s' & E & Hk & Ht);
      [lia|lia|done|].
    exists (Some p), s'. split; [done|]. split; [done|]. right.
    exists (Z.to_nat (tp s)), p, l'. repeat split; try done. left. lia.
Qed.

Lemma kfree_panics pa s :
  kfree_rejects pa = true → kfree pa s = (Panic "kfree", s).
Proof. intros H. unfold Kalloc.kfree. by rewrite H. Qed.

Lemma kfree_rejects_true pa :
  kfree_rejects pa = true ↔ pa mod PGSIZE ≠ 0 ∨ pa < end_ ∨ PHYSTOP ≤ pa.
Proof.
  destruct (kfree_rejects pa) eqn:E.
  - split; [|done]. intros _.
    destruct (decide (pa mod PGSIZE = 0 ∧ end_ ≤ pa < PHYSTOP)) as [H|H].
    + apply kfree_rejects_false in H. congruence.
    + lia.
  - apply kfree_rejects_false in E. split; [done|lia].
Qed.

(** The two invariants are kept by both operations. *)
Lemma owned_kfree pa s s' :
  owned s → kfree pa s = (Ret tt, s') → owned s'.
Proof.
  intros Ho E. unfold Kalloc.kfree in E.
  destruct (kfree_rejects pa) eqn:Hv; [done|].
  revert E. run. unfold Kalloc.index.
  case_bool_decide as Hi; [|done]. unfold freelist. simpl.
  destruct (kmem s !! Z.to_nat (owner pa)) as [l|] eqn:Hl; [|done].
  simpl. intros [= <-]. intros j l0 p. simpl.
  destruct (decide (j = Z.to_nat (owner pa))) as [->|Hne].
  - rewrite list_lookup_insert_eq by by eapply lookup_lt_Some.
    intros [= <-] [->|Hp]%elem_of_cons.
    + split; [done|lia].
    + by eapply Ho.
  - rewrite list_lookup_insert_ne by done. apply Ho.
Qed.



Lemma kfree_length pa s s' :
  kfree pa s = (Ret tt, s') →
  length (kmem s') = length (kmem s) ∧ tp s' = tp s.
Proof.
  unfold Kalloc.kfree. destruct (kfree_rejects pa); [done|].
  run. unfold Kalloc.index. case_bool_decide; [|done].
  unfold freelist. simpl. destruct (kmem s !! _); [|done].
  simpl. intros [= <-]. simpl. by rewrite length_insert.
Qed.

Lemma free_pages_keeps m : ∀ p s s',
  owned s →
  Kalloc.free_pages PGSIZE NMEM PHYSTOP end_ NCPU p m s = (Ret tt, s') →
  owned s' ∧ length (kmem s') = length (kmem s) ∧ tp s' = tp s.
Proof.
  induction m as [|m IH]; intros p s s' Ho; simpl.
  - by intros [= <-].
  - unfold bind. destruct (kfree p s) as [[[]|?| |?] s1] eqn:E; try done.
    intros E'. destruct (kfree_length p s s1 E) as [Hl Ht].
    destruct (IH _ s1 s' (owned_kfree p s s1 Ho E) E') as (? & ? & ?).
    split; [done|]. split; congruence.
Qed.

Lemma kinit_from_keeps m : ∀ i s s',
  owned s →
  Kalloc.kinit_from PGSIZE NMEM PHYSTOP end_ NCPU i m s = (Ret tt, s') →
  owned s' ∧ length (kmem s') = length (kmem s) ∧ tp s' = tp s.
Proof.
  induction m as [|m IH]; intros i s s' Ho; simpl.
  - by intros [= <-].
  - unfold bind, Kalloc.freerange.
    destruct (Kalloc.free_pages _ _ _ _ _ _ _ s) as [[[]|?| |?] s1] eqn:E;
      try done.
    intros E'. destruct (free_pages_keeps _ _ s s1 Ho E) as (Ho1 & Hl & Ht).
    destruct (IH _ s1 s' Ho1 E') as (? & ? & ?).
    split; [done|]. split; congruence.
Qed.

(** When [kinit] goes through, the allocator it leaves satisfies the two
    invariants. *)
Lemma kinit_owned c s :
  0 ≤ c < Z.of_nat NCPU →
  Kalloc.kinit PGSIZE NMEM PHYSTOP end_ NCPU (boot NCPU c) = (Ret tt, s) →
  wf s ∧ owned s.
Proof.
  intros Hc E. unfold Kalloc.kinit in E.
  destruct (kinit_from_keeps NCPU 0%nat (boot NCPU c) s) as (Ho & Hl & Ht).
  - intros j l p Hj Hp. simpl in Hj.
    apply lookup_replicate in Hj as [-> _]. by apply elem_of_nil in Hp.
  - done.
  - split; [|done]. split.
    + rewrite Hl. simpl. by rewrite length_replicate.
    + by rewrite Ht.
Qed.

(** C5: [kfree] finds the core to give the page to from the address alone,
    as [(pa - end) / NMEM], and pushes the page on that core's list between
    the acquire and the release of that list's lock; the result is the same
    whichever core runs [kfree].  The page freed is one that is on no free
    list. *)
Theorem kfree_address_affinity pa (i : nat) l s :
  0 < NMEM < 2 ^ 64 → 0 ≤ end_ → pa < 2 ^ 64 →
  Z.of_nat NCPU < 2 ^ 31 →
  kfree_rejects pa = false →
  (pa - end_) / NMEM = Z.of_nat i → (i < NCPU)%nat →
  kmem s !! i = Some l →
  pa ∉ concat (kmem s) →
  ∀ c, kfree pa (set_tp c s) =
    (Ret tt, mkState (<[i := pa :: l]> (kmem s)) c
               (trace s ++ [EMemset pa 1; EAcquire i; EStore i; ERelease i])).
Proof.
  intros HN He Hpa HC Hv Hq Hi Hl _ c.
  apply kfree_rejects_false in Hv as Hv'.
  apply (kfree_run pa i l (set_tp c s)); try done.
  rewrite owner_quot; lia.
Qed.

(** C6: when [kalloc] hands out [p], [kfree(p)] right after puts [p] back on
    top of the list of the core that owns its address, which restores the
    lists as they were; a [kalloc] on that core then returns [p] again. *)
Theorem kfree_kalloc_round_trip s p s1 :
  wf s → owned s → kalloc s = (Ret (Some p), s1) →
  ∃ (o : nat) l s2 s3,
    owner p = Z.of_nat o ∧ kmem s1 !! o = Some l ∧
    kfree p s1 = (Ret tt, s2) ∧
    kmem s2 = <[o := p :: l]> (kmem s1) ∧ kmem s2 = kmem s ∧
    kalloc (set_tp (Z.of_nat o) s2) = (Ret (Some p), s3) ∧
    kmem s3 = kmem s1.
Proof.
  intros Hwf Ho E.
  destruct (kalloc_cases s Hwf) as (r0 & s0 & E0 & Ht & H).
  rewrite E in E0. injection E0 as <- <-.
  destruct H as [(? & _)|(j & q & l' & [= <-] & Hj & Hk & _)]; [done|].
  destruct (Ho j _ p Hj) as [Hv Hown]; [by apply elem_of_cons; left|].
  assert (j < NCPU)%nat as HjN.
  { destruct Hwf as [<- _]. by eapply lookup_lt_Some. }
  assert (kmem s1 !! j = Some l') as Hj1.
  { rewrite Hk. apply list_lookup_insert_eq. by eapply lookup_lt_Some. }
  pose proof (kfree_run p j l' s1 Hv Hown HjN Hj1) as Ef.
  set (s2 := mkState _ _ _) in Ef.
  assert (kmem s2 = kmem s) as Hback.
  { simpl. rewrite Hk, list_insert_insert_eq. by apply list_insert_id. }
  destruct (kalloc_local j p l' (set_tp (Z.of_nat j) s2)) as (s3 & Ea & Hk3 & _).
  { done. }
  { done. }
  { simpl. apply list_lookup_insert_eq. by eapply lookup_lt_Some. }
  exists j, l', s2, s3. repeat split; try done.
  rewrite Hk3. simpl. rewrite list_insert_insert_eq.
  apply list_insert_id. done.
Qed.

(** C7: [kalloc] always returns to its caller, never panics, and the value
    it returns is the null pointer exactly when every free list is empty,
    in which case the lists are as they were. *)
Theorem kalloc_none_iff_all_empty s :
  wf s →
  ∃ r s', kalloc s = (Ret r, s') ∧
          (r = None ↔ Forall (λ l, l = []) (kmem s)) ∧
          (r = None → kmem s' = kmem s).
Proof.
  intros Hwf.
  destruct (kalloc_cases s Hwf) as (r & s' & E & _ & H).
  exists r, s'. split; [done|].
  destruct H as [(-> & Hall & Hk)|(j & p & l' & -> & Hj & _)].
  - done.
  - split; [|done]. split; [done|]. intros Hall.
    by apply (Forall_lookup_1 _ _ _ _ Hall) in Hj.
Qed.

(** C9: when the partitions reach the top of physical memory
    ([PHYSTOP <= end + NCPU * NMEM]), every address [kfree] accepts gives an
    index inside [kmem]; [kfree] itself does not test this: an accepted
    address past the last partition indexes [kmem] out of its bounds. *)
Theorem kfree_index_in_bounds :
  0 < NMEM < 2 ^ 64 → 0 ≤ end_ → PHYSTOP ≤ 2 ^ 64 →
  Z.of_nat NCPU < 2 ^ 31 →
  (PHYSTOP ≤ end_ + Z.of_nat NCPU * NMEM →
   ∀ pa, kfree_rejects pa = false →
     owner pa = (pa - end_) / NMEM ∧ 0 ≤ owner pa < Z.of_nat NCPU ∧
     ∀ s, length (kmem s) = NCPU → ∃ s', kfree pa s = (Ret tt, s')) ∧
  (∀ pa s, kfree_rejects pa = false →
     end_ + Z.of_nat NCPU * NMEM ≤ pa → (pa - end_) / NMEM < 2 ^ 31 →
     kfree pa s =
       (Fault, mkState (kmem s) (tp s) (trace s ++ [EMemset pa 1]))).
Proof.
  intros HN He HP HC. split.
  - intros Htop pa Hv. apply kfree_rejects_false in Hv as Hv'.
    assert (0 ≤ (pa - end_) / NMEM < Z.of_nat NCPU) as Hq.
    { split; [apply Z.div_pos; lia|].
      apply Z.div_lt_upper_bound; lia. }
    assert (owner pa = (pa - end_) / NMEM) as Ho by (apply owner_quot; lia).
    split; [done|]. split; [lia|]. intros s Hlen.
    destruct (lookup_lt_is_Some_2 (kmem s) (Z.to_nat (owner pa))) as [l Hl].
    { lia. }
    eexists. apply (kfree_run pa (Z.to_nat (owner pa)) l); try done; lia.
  - intros pa s Hv Hpast Hq. apply kfree_rejects_false in Hv as Hv'.
    assert (Z.of_nat NCPU ≤ (pa - end_) / NMEM) as Hge.
    { apply Z.div_le_lower_bound; lia. }
    unfold Kalloc.kfree. rewrite Hv. run.
    rewrite index_out; [done|]. rewrite owner_quot; lia.
Qed.
End spec.

(** A machine with two cores and four pages each, as laid out by [kinit]. *)
Definition two_cores : state :=
  (kinit 4096 16384 4128768 4096000 2 (boot 2 0)).2.

Example two_cores_kmem :
  kmem two_cores = [[4108288; 4104192; 4100096; 4096000];
                    [4124672; 4120576; 4116480; 4112384]].
Proof. reflexivity. Qed.

(** Core 0 takes its four pages, highest first, then one of core 1. *)
Example two_cores_steal :
  ((kalloc 2 ;;; kalloc 2 ;;; kalloc 2 ;;; kalloc 2) two_cores).1
    = Ret (Some 4096000) ∧
  ((kalloc 2 ;;; kalloc 2 ;;; kalloc 2 ;;; kalloc 2 ;;; kalloc 2) two_cores).1
    = Ret (Some 4124672).
Proof. split; reflexivity. Qed.

Lemma two_cores_owned : owned 4096 16384 4128768 4096000 two_cores.
Proof.
  apply (kinit_owned 4096 16384 4128768 4096000 2 0); [lia|by vm_compute].
Qed.

Lemma kfree_address_affinity_witness :
  kfree 4096 16384 4128768 4096000 2 4096000 (set_tp 1 (boot 2 0)) =
    (Ret tt, mkState (<[0%nat := [4096000]]> (kmem (boot 2 0))) 1
               (trace (boot 2 0) ++
                [EMemset 4096000 1; EAcquire 0; EStore 0; ERelease 0])).
Proof.
  apply (kfree_address_affinity 4096 16384 4128768 4096000 2
           4096000 0%nat [] (boot 2 0)).
  all: first [lia | reflexivity | apply not_elem_of_nil].
Defined.

Lemma kfree_kalloc_round_trip_witness :
  ∃ (o : nat) l s2 s3,
    owner 16384 4096000 4108288 = Z.of_nat o ∧
    kmem (kalloc 2 two_cores).2 !! o = Some l ∧
    kfree 4096 16384 4128768 4096000 2 4108288 (kalloc 2 two_cores).2
      = (Ret tt, s2) ∧
    kmem s2 = <[o := 4108288 :: l]> (kmem (kalloc 2 two_cores).2) ∧
    kmem s2 = kmem two_cores ∧
    kalloc 2 (set_tp (Z.of_nat o) s2) = (Ret (Some 4108288), s3) ∧
    kmem s3 = kmem (kalloc 2 two_cores).2.
Proof.
  apply (kfree_kalloc_round_trip 4096 16384 4128768 4096000 2 two_cores).
  - split; [reflexivity | change (tp two_cores) with 0; lia].
  - exact two_cores_owned.
  - reflexivity.
Defined.

Lemma kalloc_none_iff_all_empty_witness :
  ∃ r s', kalloc 2 (boot 2 1) = (Ret r, s') ∧
          (r = None ↔ Forall (λ l, l = []) (kmem (boot 2 1))) ∧
          (r = None → kmem s' = kmem (boot 2 1)).
Proof.
  apply (kalloc_none_iff_all_empty 2 (boot 2 1)).
  split; [reflexivity | simpl; lia].
Defined.

Lemma kfree_index_in_bounds_witness :
  (4128768 ≤ 4096000 + Z.of_nat 2 * 16384 →
   ∀ pa, kfree_rejects 4096 4128768 4096000 pa = false →
     owner 16384 4096000 pa = (pa - 4096000) / 16384 ∧
     0 ≤ owner 16384 4096000 pa < Z.of_nat 2 ∧
     ∀ s, length (kmem s) = 2%nat →
       ∃ s', kfree 4096 16384 4128768 4096000 2 pa s = (Ret tt, s')) ∧
  (∀ pa s, kfree_rejects 4096 4128768 4096000 pa = false →
     4096000 + Z.of_nat 2 * 16384 ≤ pa → (pa - 4096000) / 16384 < 2 ^ 31 →
     kfree 4096 16384 4128768 4096000 2 pa s =
       (Fault, mkState (kmem s) (tp s) (trace s ++ [EMemset pa 1]))).
Proof.
  apply (kfree_index_in_bounds 4096 16384 4128768 4096000 2); lia.
Defined.

(** With the top of memory one partition further up than the two cores
    cover, the first page past them is accepted and faults. *)
Example kfree_past_partitions :
  (kfree 4096 16384 (4128768 + 16384) 4096000 2 4128768 (boot 2 0)).1 = Fault.
Proof. reflexivity. Qed.
End KallocSpec.

(** ** Properties of the buffer cache *)

Module BioSpec.
Import Bio.
Local Open Scope Z_scope.

Ltac run :=
  cbv [bind log acquire release modify gets ret fault panic]; simpl.

(** The two ways [bget] rewrites a buffer: a hit takes one more reference
    and stamps the time; a recycled buffer gets a new identity. *)
Definition touch (t : Z) (e : buf) : buf :=
  with_time t (with_refcnt (wrap32 (refcnt e + 1)) e).
Definition recycle (d n t : Z) (e : buf) : buf :=
  with_time t (with_refcnt 1 (with_valid false (with_blockno n (with_dev d e)))).

(** Acquire and release of the bucket locks [lo .. lo+n-1], one after the
    other. *)
Definition lock_pairs (lo n : nat) : list event :=
  flat_map (λ k, [EAcquire (LBucket k); ERelease (LBucket k)]) (seq lo n).

Definition idle (k : nat) (s : state) : state :=
  put_trace (trace s ++ [EAcquire (LBucket k); ERelease (LBucket k)]) s.

(** The tail of every returning path of [bget]. *)
Definition finish (b : nat) : M state nat := acquiresleep b ;;; ret b.

Lemma skips_idle n : ∀ lo s,
  skips idle lo n s = put_trace (trace s ++ lock_pairs lo n) s.
Proof.
  induction n as [|n IH]; intros lo s; simpl.
  - unfold lock_pairs. simpl. rewrite app_nil_r. by destruct s.
  - rewrite IH. unfold idle, lock_pairs. simpl. by rewrite <- app_assoc.
Qed.

Lemma get_buf_run b e s :
  bufs s !! b = Some e → get_buf b s = (Ret e, s).
Proof. intros H. unfold get_buf. by rewrite H. Qed.

Lemma upd_buf_run b e f s :
  bufs s !! b = Some e →
  upd_buf b f s = (Ret tt, put_bufs (<[b := f e]> (bufs s)) s).
Proof. intros H. unfold upd_buf, bind. by rewrite (get_buf_run b e). Qed.

Lemma get_bucket_run k b s :
  bucket s !! k = Some b → get_bucket k s = (Ret b, s).
Proof. intros H. unfold get_bucket. by rewrite H. Qed.

Lemma set_bucket_run k b s :
  (k < length (bucket s))%nat →
  set_bucket k b s = (Ret tt, put_bucket (<[k := b]> (bucket s)) s).
Proof.
  intros H. destruct (lookup_lt_is_Some_2 _ _ H) as [x Hx].
  unfold set_bucket, bind. by rewrite (get_bucket_run k x).
Qed.

Lemma upd_buf_twice b e f g s :
  bufs s !! b = Some e →
  (upd_buf b f ;;; upd_buf b g) s =
    (Ret tt, put_bufs (<[b := g (f e)]> (bufs s)) s).
Proof.
  intros H. unfold bind at 1. rewrite (upd_buf_run b e) by done.
  rewrite (upd_buf_run b (f e)).
  - simpl. unfold put_bufs. simpl. by rewrite list_insert_insert_eq.
  - simpl. apply list_lookup_insert_eq. by eapply lookup_lt_Some.
Qed.

Lemma acquiresleep_run b e s :
  bufs s !! b = Some e →
  acquiresleep b s =
    match lock e with
    | None => (Ret tt, put_trace (trace s ++ [EAcquireSleep b])
                         (put_bufs (<[b := with_lock (Some (pid s)) e]> (bufs s)) s))
    | Some _ => (Blocked b, s)
    end.
Proof.
  intros H. unfold acquiresleep, bind at 1. rewrite (get_buf_run b e) by done.
  destruct (lock e); [done|]. run. by rewrite (upd_buf_run b e).
Qed.

Ltac norm :=
  unfold put_trace, put_bufs, put_bucket, put_disk, put_evict, idle, touch,
    recycle; simpl;
  rewrite ?list_insert_insert_eq, <- ?app_assoc; simpl.

Lemma insert_alter {A} (f : A → A) (l : list A) i x :
  l !! i = Some x → <[i := f x]> l = alter f i l.
Proof.
  intros H. apply list_eq. intros j. destruct (decide (i = j)) as [<-|Hne].
  - rewrite list_lookup_insert_eq by by eapply lookup_lt_Some.
    by rewrite list_lookup_alter_eq, H.
  - by rewrite list_lookup_insert_ne, list_lookup_alter_ne.
Qed.

Lemma skips_same {St} n : ∀ lo (s : St), skips (λ _ s0, s0) lo n s = s.
Proof. induction n as [|n IH]; intros lo s; simpl; [done|apply IH]. Qed.

(** *** Spinlocks held along a trace *)

#[local] Instance spinlock_eq_dec : EqDecision spinlock.
Proof. solve_decision. Defined.

Definition is_bucket (l : spinlock) : bool :=
  match l with
  | LBucket _ => true
  | LBcache => false
  end.

(** The spinlocks held after an event, given those held before it. *)
Definition step (h : list spinlock) (e : event) : list spinlock :=
  match e with
  | EAcquire l => l :: h
  | ERelease l => filter (λ x, x ≠ l) h
  | _ => h
  end.

Definition holds_both (h : list spinlock) : bool :=
  bool_decide (LBcache ∈ h) && existsb is_bucket h.

(** No point of the trace has [bcache.lock] and a bucket lock held
    together. *)
Fixpoint never_both (h : list spinlock) (tr : list event) : bool :=
  match tr with
  | [] => true
  | e :: tr' => negb (holds_both (step h e)) && never_both (step h e) tr'
  end.

(** The order the locks are taken in: [bcache.lock] only with no spinlock
    held, a bucket lock with none held or with [bcache.lock] alone, a
    release only of a lock that is held, and a sleep-lock only with no
    spinlock held. *)
Definition allowed (h : list spinlock) (e : event) : bool :=
  match e with
  | EAcquire LBcache => bool_decide (h = [])
  | EAcquire (LBucket _) => bool_decide (h = [] ∨ h = [LBcache])
  | ERelease l => bool_decide (l ∈ h)
  | EAcquireSleep _ => bool_decide (h = [])
  | _ => true
  end.

Fixpoint ordered (h : list spinlock) (tr : list event) : bool :=
  match tr with
  | [] => true
  | e :: tr' => allowed h e && ordered (step h e) tr'
  end.

Lemma step_release l : step [l] (ERelease l) = [].
Proof. simpl. rewrite filter_cons. by case_decide. Qed.

Lemma step_release_inner k :
  step [LBucket k; LBcache] (ERelease (LBucket k)) = [LBcache].
Proof.
  simpl. rewrite !filter_cons. case_decide; [done|]. by case_decide.
Qed.

Lemma pairs_cons lo m :
  lock_pairs lo (S m) =
  EAcquire (LBucket lo) :: ERelease (LBucket lo) :: lock_pairs (S lo) m.
Proof. done. Qed.

Lemma ordered_pairs m : ∀ lo rest,
  ordered [] (lock_pairs lo m ++ rest) = ordered [] rest.
Proof.
  induction m as [|m IH]; intros lo rest; [done|].
  rewrite pairs_cons. cbn [app ordered].
  change (step [] (EAcquire (LBucket lo))) with [LBucket lo].
  rewrite step_release, IH.
  simpl. rewrite bool_decide_true; [done|set_solver].
Qed.

Lemma never_both_pairs m : ∀ lo rest,
  never_both [] (lock_pairs lo m ++ rest) = never_both [] rest.
Proof.
  induction m as [|m IH]; intros lo rest; [done|].
  rewrite pairs_cons. cbn [app never_both].
  change (step [] (EAcquire (LBucket lo))) with [LBucket lo].
  rewrite step_release, IH.
  unfold holds_both. by simpl.
Qed.

Lemma held_pairs m : ∀ lo rest,
  foldl step [] (lock_pairs lo m ++ rest) = foldl step [] rest.
Proof.
  induction m as [|m IH]; intros lo rest; [done|].
  rewrite pairs_cons. cbn [app foldl].
  change (step [] (EAcquire (LBucket lo))) with [LBucket lo].
  by rewrite step_release, IH.
Qed.

Definition scan_locks (m : nat) : list event :=
  [EAcquire LBcache; EAcquire (LBucket m); ERelease (LBucket m);
   ERelease LBcache].

Lemma ordered_scan m sl : ordered [] (scan_locks m ++ sl) = ordered [] sl.
Proof.
  unfold scan_locks. cbn [app ordered].
  change (step (step [] (EAcquire LBcache)) (EAcquire (LBucket m)))
    with [LBucket m; LBcache].
  rewrite step_release_inner. simpl.
  rewrite bool_decide_true; [done|set_solver].
Qed.

Lemma never_both_scan m sl : never_both [] (scan_locks m ++ sl) = false.
Proof. done. Qed.

Lemma held_scan m sl :
  foldl step [] (scan_locks m ++ sl) = foldl step [] sl.
Proof.
  unfold scan_locks. cbn [app foldl].
  change (step (step [] (EAcquire LBcache)) (EAcquire (LBucket m)))
    with [LBucket m; LBcache].
  by rewrite step_release_inner.
Qed.

Lemma list_find_index_erase {A} (P : A → Prop) `{!∀ x, Decision (P x)}
    (f : A → A) (l1 l2 : list A) :
  (∀ x, P (f x) ↔ P x) → f <$> l1 = f <$> l2 →
  fst <$> list_find P l1 = fst <$> list_find P l2.
Proof.
  intros HP Heq.
  assert (∀ l, fst <$> list_find P l = fst <$> list_find P (f <$> l)) as Hf.
  { intros l. rewrite list_find_fmap.
    rewrite (list_find_ext (P ∘ f) P) by (intros x; apply HP).
    by destruct (list_find P l) as [[]|]. }
  by rewrite (Hf l1), (Hf l2), Heq.
Qed.

Section spec.
Variables (NBUF NBUCKET : nat).
Variables (d n : Z).

Abbreviation bget_bucket := (Bio.bget_bucket d n).
Abbreviation bget_scan := (Bio.bget_scan NBUCKET d n).
Abbreviation bget_recycle := (Bio.bget_recycle d n).
Abbreviation bget := (Bio.bget NBUF NBUCKET d n).
Abbreviation bread := (Bio.bread NBUF NBUCKET d n).

(** The arrays have their declared sizes and every bucket points into
    [bcache.buf]. *)
Definition wf (s : state) : Prop :=
  length (bufs s) = NBUF ∧ length (bucket s) = NBUCKET ∧
  (0 < NBUCKET)%nat ∧ Forall (λ b, b < NBUF)%nat (bucket s).

Lemma bget_bucket_miss k b e s :
  bucket s !! k = Some b → bufs s !! b = Some e →
  same_block d n e = false →
  bget_bucket k s = (Ret None, idle k s).
Proof.
  intros Hk Hb Hne. unfold Bio.bget_bucket. run.
  rewrite (get_bucket_run k b) by done.
  rewrite (get_buf_run b e) by done. rewrite Hne. simpl.
  unfold idle. by rewrite <- app_assoc.
Qed.

Lemma bget_bucket_hit k b e s :
  bucket s !! k = Some b → bufs s !! b = Some e →
  same_block d n e = true →
  bget_bucket k s =
    (x <- finish b ;; ret (Some x))
      (put_trace (trace s ++ [EAcquire (LBucket k); ERelease (LBucket k)])
         (put_bufs (<[b := touch (ticks s) e]> (bufs s)) s)).
Proof.
  intros Hk Hb He. unfold Bio.bget_bucket, finish. run.
  rewrite (get_bucket_run k b) by done.
  rewrite (get_buf_run b e) by done. rewrite He. simpl.
  rewrite (upd_buf_run b e) by done. simpl.
  erewrite (upd_buf_run b)
    by (simpl; apply list_lookup_insert_eq; by eapply lookup_lt_Some).
  norm. by destruct (acquiresleep _ _) as [[]].
Qed.

Lemma bget_scan_miss i e s :
  bufs s !! i = Some e → same_block d n e = false →
  bget_scan i s = (Ret None, s).
Proof.
  intros Hb Hne. unfold Bio.bget_scan. run.
  rewrite (get_buf_run i e) by done. by rewrite Hne.
Qed.

Lemma bget_scan_hit i e s :
  length (bucket s) = NBUCKET → (0 < NBUCKET)%nat →
  bufs s !! i = Some e → same_block d n e = true →
  bget_scan i s =
    (x <- finish i ;; ret (Some x))
      (put_trace (trace s ++ [EAcquire (LBucket (i mod NBUCKET));
                              ERelease (LBucket (i mod NBUCKET));
                              ERelease LBcache])
         (put_bucket (<[(i mod NBUCKET)%nat := i]> (bucket s))
            (put_bufs (<[i := touch (ticks s) e]> (bufs s)) s))).
Proof.
  intros Hlen Hpos Hb He. unfold Bio.bget_scan, finish. run.
  rewrite (get_buf_run i e) by done. rewrite He. simpl.
  rewrite (upd_buf_run i e) by done. simpl.
  erewrite (upd_buf_run i)
    by (simpl; apply list_lookup_insert_eq; by eapply lookup_lt_Some).
  simpl. rewrite set_bucket_run
    by (simpl; rewrite Hlen; apply Nat.mod_upper_bound; lia).
  norm. by destruct (acquiresleep _ _) as [[]].
Qed.

Lemma bget_recycle_miss i e s :
  bufs s !! i = Some e → refcnt e ≠ 0 →
  bget_recycle i s = (Ret None, s).
Proof.
  intros Hb Hne. unfold Bio.bget_recycle. run.
  rewrite (get_buf_run i e) by done.
  by destruct (Z.eqb_spec (refcnt e) 0).
Qed.

Lemma bget_recycle_hit i e s :
  bufs s !! i = Some e → refcnt e = 0 →
  bget_recycle i s =
    (x <- finish i ;; ret (Some x))
      (put_trace (trace s ++ [ERelease LBcache])
         (put_bufs (<[i := recycle d n (ticks s) e]> (bufs s)) s)).
Proof.
  intros Hb He. unfold Bio.bget_recycle, finish. run.
  rewrite (get_buf_run i e) by done. rewrite He. simpl.
  rewrite (upd_buf_run i e) by done. simpl.
  do 4 (erewrite (upd_buf_run i)
    by (simpl; apply list_lookup_insert_eq;
        rewrite ?length_insert; by eapply lookup_lt_Some); simpl).
  norm. by destruct (acquiresleep _ _) as [[]].
Qed.

(** *** The path [bget] takes *)

Definition bucket_hits (s : state) (b : nat) : bool :=
  from_option (same_block d n) false (bufs s !! b).

Inductive path : Type :=
| PBucket (k b : nat)   (* found through bucket [k], which points to [b] *)
| PScan (i : nat)       (* found at [bcache.buf[i]] by the scan *)
| PRecycle (i : nat)    (* not cached: [bcache.buf[i]] is taken over *)
| PNone.                (* not cached and every buffer is in use *)

Definition classify (s : state) : path :=
  match list_find (λ b, bucket_hits s b = true) (bucket s) with
  | Some (k, b) => PBucket k b
  | None =>
    match list_find (λ e, same_block d n e = true) (bufs s) with
    | Some (i, _) => PScan i
    | None =>
      match list_find (λ e, refcnt e = 0) (bufs s) with
      | Some (i, _) => PRecycle i
      | None => PNone
      end
    end
  end.

(** The state each path leaves just before the sleep-lock is asked for. *)
Definition after (p : path) (s : state) : state :=
  match p with
  | PBucket k b =>
    put_trace (trace s ++ lock_pairs 0 (S k))
      (put_bufs (alter (touch (ticks s)) b (bufs s)) s)
  | PScan i =>
    put_trace (trace s ++ lock_pairs 0 NBUCKET ++
               [EAcquire LBcache; EAcquire (LBucket (i mod NBUCKET));
                ERelease (LBucket (i mod NBUCKET)); ERelease LBcache])
      (put_bucket (<[(i mod NBUCKET)%nat := i]> (bucket s))
         (put_bufs (alter (touch (ticks s)) i (bufs s)) s))
  | PRecycle i =>
    put_trace (trace s ++ lock_pairs 0 NBUCKET ++
               [EAcquire LBcache; ERelease LBcache])
      (put_bufs (alter (recycle d n (ticks s)) i (bufs s)) s)
  | PNone =>
    put_trace (trace s ++ lock_pairs 0 NBUCKET ++ [EAcquire LBcache]) s
  end.

Definition conclude (p : path) : M state nat :=
  match p with
  | PBucket _ b => finish b
  | PScan i => finish i
  | PRecycle i => finish i
  | PNone => panic "bget: no buffers"
  end.

Lemma lock_pairs_S lo m :
  lock_pairs lo (S m) =
  lock_pairs lo m ++ [EAcquire (LBucket (lo + m)); ERelease (LBucket (lo + m))].
Proof.
  unfold lock_pairs. by rewrite seq_S, flat_map_app.
Qed.

Lemma bucket_loop_hit k b s :
  wf s → list_find (λ b, bucket_hits s b = true) (bucket s) = Some (k, b) →
  for_range 0 NBUCKET bget_bucket s =
    (x <- finish b ;; ret (Some x)) (after (PBucket k b) s).
Proof.
  intros (Hnb & Hnk & Hpos & Hin) (Hk & Hb & Hlow)%list_find_Some.
  unfold bucket_hits in Hb.
  destruct (bufs s !! b) as [e|] eqn:He; [|done]. simpl in Hb.
  destruct (for_range_reach bget_bucket idle
              (λ s0, bufs s0 = bufs s ∧ bucket s0 = bucket s)
              0%nat NBUCKET k s) as [E [Hbs Hks]].
  - apply lookup_lt_Some in Hk. lia.
  - done.
  - intros j s0 Hj [Hb0 Hk0]. split; [|done].
    destruct (lookup_lt_is_Some_2 (bucket s) j) as [y Hy].
    { apply lookup_lt_Some in Hk. lia. }
    assert (y < NBUF)%nat as Hy' by by eapply (Forall_lookup_1 _ _ _ _ Hin).
    destruct (lookup_lt_is_Some_2 (bufs s) y) as [ey Hey]; [lia|].
    apply (bget_bucket_miss j y ey); rewrite ?Hb0, ?Hk0; try done.
    destruct (same_block d n ey) eqn:Hs; [|done]. exfalso.
    apply (Hlow j y Hy); [lia|]. unfold bucket_hits. by rewrite Hey.
  - rewrite E. destruct (0 + NBUCKET - k)%nat as [|m] eqn:Hm.
    { apply lookup_lt_Some in Hk. lia. }
    simpl. unfold bind at 1.
    rewrite (bget_bucket_hit k b e) by (rewrite ?Hbs, ?Hks; done).
    rewrite skips_idle. rewrite Nat.sub_0_r. simpl after.
    rewrite lock_pairs_S, <- (insert_alter _ _ _ e) by done. norm.
    unfold bind. by destruct (finish _ _) as [[]].
Qed.

Lemma bucket_loop_miss s :
  wf s → list_find (λ b, bucket_hits s b = true) (bucket s) = None →
  for_range 0 NBUCKET bget_bucket s =
    (Ret None, put_trace (trace s ++ lock_pairs 0 NBUCKET) s).
Proof.
  intros (Hnb & Hnk & Hpos & Hin) Hnone%list_find_None.
  destruct (for_range_skip bget_bucket idle
              (λ s0, bufs s0 = bufs s ∧ bucket s0 = bucket s)
              NBUCKET 0%nat s) as [E _].
  - done.
  - intros j s0 Hj [Hb0 Hk0]. split; [|done].
    destruct (lookup_lt_is_Some_2 (bucket s) j) as [y Hy]; [lia|].
    assert (y < NBUF)%nat as Hy' by by eapply (Forall_lookup_1 _ _ _ _ Hin).
    destruct (lookup_lt_is_Some_2 (bufs s) y) as [ey Hey]; [lia|].
    apply (bget_bucket_miss j y ey); rewrite ?Hb0, ?Hk0; try done.
    destruct (same_block d n ey) eqn:Hs; [|done]. exfalso.
    apply (Forall_lookup_1 _ _ _ _ Hnone Hy). unfold bucket_hits.
    by rewrite Hey.
  - by rewrite E, skips_idle.
Qed.

Lemma scan_loop_hit i e s :
  length (bufs s) = NBUF → length (bucket s) = NBUCKET → (0 < NBUCKET)%nat →
  list_find (λ e, same_block d n e = true) (bufs s) = Some (i, e) →
  for_range 0 NBUF bget_scan s = bget_scan i s.
Proof.
  intros Hnb Hnk Hpos (Hi & He & Hlow)%list_find_Some.
  destruct (for_range_reach bget_scan (λ _ s0, s0) (λ s0, s0 = s)
              0%nat NBUF i s) as [E _].
  - apply lookup_lt_Some in Hi. lia.
  - done.
  - intros j s0 Hj ->. split; [|done].
    destruct (lookup_lt_is_Some_2 (bufs s) j) as [y Hy].
    { apply lookup_lt_Some in Hi. lia. }
    apply (bget_scan_miss j y); [done|].
    destruct (same_block d n y) eqn:Hs; [|done]. exfalso.
    apply (Hlow j y Hy); [lia|done].
  - rewrite E, skips_same. destruct (0 + NBUF - i)%nat as [|m] eqn:Hm.
    { apply lookup_lt_Some in Hi. lia. }
    simpl. unfold bind at 1.
    rewrite (bget_scan_hit i e) by done.
    unfold bind. by destruct (finish _ _) as [[]].
Qed.

Lemma scan_loop_miss s :
  length (bufs s) = NBUF →
  list_find (λ e, same_block d n e = true) (bufs s) = None →
  for_range 0 NBUF bget_scan s = (Ret None, s).
Proof.
  intros Hnb Hnone%list_find_None.
  destruct (for_range_skip bget_scan (λ _ s0, s0) (λ s0, s0 = s)
              NBUF 0%nat s) as [E _].
  - done.
  - intros j s0 Hj ->. split; [|done].
    destruct (lookup_lt_is_Some_2 (bufs s) j) as [y Hy]; [lia|].
    apply (bget_scan_miss j y); [done|].
    destruct (same_block d n y) eqn:Hs; [|done]. exfalso.
    by apply (Forall_lookup_1 _ _ _ _ Hnone Hy).
  - by rewrite E, skips_same.
Qed.

Lemma recycle_loop_hit i e s :
  length (bufs s) = NBUF →
  list_find (λ e, refcnt e = 0) (bufs s) = Some (i, e) →
  for_range 0 NBUF bget_recycle s = bget_recycle i s.
Proof.
  intros Hnb (Hi & He & Hlow)%list_find_Some.
  destruct (for_range_reach bget_recycle (λ _ s0, s0) (λ s0, s0 = s)
              0%nat NBUF i s) as [E _].
  - apply lookup_lt_Some in Hi. lia.
  - done.
  - intros j s0 Hj ->. split; [|done].
    destruct (lookup_lt_is_Some_2 (bufs s) j) as [y Hy].
    { apply lookup_lt_Some in Hi. lia. }
    apply (bget_recycle_miss j y); [done|]. apply (Hlow j y Hy). lia.
  - rewrite E, skips_same. destruct (0 + NBUF - i)%nat as [|m] eqn:Hm.
    { apply lookup_lt_Some in Hi. lia. }
    simpl. unfold bind at 1.
    rewrite (bget_recycle_hit i e) by done.
    unfold bind. by destruct (finish _ _) as [[]].
Qed.

Lemma recycle_loop_miss s :
  length (bufs s) = NBUF →
  list_find (λ e, refcnt e = 0) (bufs s) = None →
  for_range 0 NBUF bget_recycle s = (Ret None, s).
Proof.
  intros Hnb Hnone%list_find_None.
  destruct (for_range_skip bget_recycle (λ _ s0, s0) (λ s0, s0 = s)
              NBUF 0%nat s) as [E _].
  - done.
  - intros j s0 Hj ->. split; [|done].
    destruct (lookup_lt_is_Some_2 (bufs s) j) as [y Hy]; [lia|].
    apply (bget_recycle_miss j y); [done|].
    by apply (Forall_lookup_1 _ _ _ _ Hnone Hy).
  - by rewrite E, skips_same.
Qed.

(** [bget] is the path it takes: the state that path leaves, then the
    sleep-lock (or the panic when there is no buffer to take over). *)
Lemma bget_run s :
  wf s → bget s = conclude (classify s) (after (classify s) s).
Proof.
  intros Hwf. pose proof Hwf as (Hnb & Hnk & Hpos & Hin).
  unfold Bio.bget, classify.
  destruct (list_find _ (bucket s)) as [[k b]|] eqn:Hf.
  { unfold bind at 1. rewrite (bucket_loop_hit k b) by done.
    unfold bind, conclude. by destruct (finish _ _) as [[]]. }
  unfold bind at 1. rewrite bucket_loop_miss by done.
  unfold bind at 1. unfold acquire at 1, log, modify.
  set (s1 := put_trace _ _).
  destruct (list_find _ (bufs s)) as [[i e]|] eqn:Hs.
  { unfold bind at 1. rewrite (scan_loop_hit i e s1) by done.
    apply list_find_Some in Hs as (Hi & He & _).
    rewrite (bget_scan_hit i e) by done.
    simpl after. rewrite <- (insert_alter _ _ _ e) by done.
    subst s1. norm. unfold bind, conclude.
    by destruct (finish _ _) as [[]]. }
  unfold bind at 1. rewrite scan_loop_miss by done.
  destruct (list_find (λ e, refcnt e = 0) (bufs s)) as [[i e]|] eqn:Hr.
  { unfold bind at 1. rewrite (recycle_loop_hit i e s1) by done.
    apply list_find_Some in Hr as (Hi & He & _).
    rewrite (bget_recycle_hit i e) by done.
    simpl after. rewrite <- (insert_alter _ _ _ e) by done.
    subst s1. norm. unfold bind, conclude.
    by destruct (finish _ _) as [[]]. }
  unfold bind at 1. rewrite recycle_loop_miss by done.
  subst s1. unfold conclude, panic, after. by norm.
Qed.

Definition target (p : path) : option nat :=
  match p with
  | PBucket _ b => Some b
  | PScan i => Some i
  | PRecycle i => Some i
  | PNone => None
  end.

Lemma not_true_false (b : bool) : b ≠ true → b = false.
Proof. by destruct b. Qed.

Lemma classify_cases s :
  match classify s with
  | PBucket k b =>
    bucket s !! k = Some b ∧
    (∃ e, bufs s !! b = Some e ∧ same_block d n e = true) ∧
    ∀ j y, bucket s !! j = Some y → (j < k)%nat → bucket_hits s y = false
  | PScan i =>
    Forall (λ b, bucket_hits s b = false) (bucket s) ∧
    (∃ e, bufs s !! i = Some e ∧ same_block d n e = true) ∧
    ∀ j y, bufs s !! j = Some y → (j < i)%nat → same_block d n y = false
  | PRecycle i =>
    Forall (λ b, bucket_hits s b = false) (bucket s) ∧
    Forall (λ e, same_block d n e = false) (bufs s) ∧
    (∃ e, bufs s !! i = Some e ∧ refcnt e = 0) ∧
    ∀ j y, bufs s !! j = Some y → (j < i)%nat → refcnt y ≠ 0
  | PNone =>
    Forall (λ b, bucket_hits s b = false) (bucket s) ∧
    Forall (λ e, same_block d n e = false) (bufs s) ∧
    Forall (λ e, refcnt e ≠ 0) (bufs s)
  end.
Proof.
  unfold classify.
  destruct (list_find _ (bucket s)) as [[k b]|] eqn:Hf.
  { apply list_find_Some in Hf as (Hk & Hb & Hlow). split; [done|]. split.
    - unfold bucket_hits in Hb. destruct (bufs s !! b) as [e|]; [|done]. eauto.
    - intros j y Hy Hj. apply not_true_false. eauto. }
  apply list_find_None in Hf.
  assert (Forall (λ b, bucket_hits s b = false) (bucket s)) as Hno.
  { eapply Forall_impl; [exact Hf|]. intros b. apply not_true_false. }
  destruct (list_find _ (bufs s)) as [[i e]|] eqn:Hs.
  { apply list_find_Some in Hs as (Hi & He & Hlow). split; [done|].
    split; [eauto|]. intros j y Hy Hj. apply not_true_false. eauto. }
  apply list_find_None in Hs.
  assert (Forall (λ e, same_block d n e = false) (bufs s)) as Hne.
  { eapply Forall_impl; [exact Hs|]. intros b. apply not_true_false. }
  destruct (list_find (λ e, refcnt e = 0) (bufs s)) as [[i e]|] eqn:Hr.
  { apply list_find_Some in Hr as (Hi & He & Hlow). eauto 10. }
  apply list_find_None in Hr. done.
Qed.

Lemma target_in_range s b :
  wf s → target (classify s) = Some b → (b < NBUF)%nat.
Proof.
  intros (Hnb & Hnk & Hpos & Hin) Ht. pose proof (classify_cases s) as H.
  destruct (classify s) as [k b'|i|i|]; simpl in Ht; [| | |done];
    injection Ht as ->.
  - destruct H as (_ & (e & He & _) & _). rewrite <- Hnb.
    by eapply lookup_lt_Some.
  - destruct H as (_ & (e & He & _) & _). rewrite <- Hnb.
    by eapply lookup_lt_Some.
  - destruct H as (_ & _ & (e & He & _) & _). rewrite <- Hnb.
    by eapply lookup_lt_Some.
Qed.

Lemma bufs_after_length p s : length (bufs (after p s)) = length (bufs s).
Proof. destruct p; simpl; by rewrite ?length_alter. Qed.

(** Taking the sleep-lock of [b] for the caller. *)
Definition locked (b : nat) (e : buf) (s : state) : state :=
  put_trace (trace s ++ [EAcquireSleep b])
    (put_bufs (<[b := with_lock (Some (pid s)) e]> (bufs s)) s).

Lemma finish_run b e s :
  bufs s !! b = Some e →
  finish b s = match lock e with
               | None => (Ret b, locked b e s)
               | Some _ => (Blocked b, s)
               end.
Proof.
  intros H. unfold finish, bind. rewrite (acquiresleep_run b e) by done.
  by destruct (lock e).
Qed.

(** The outcome of [bget]: a panic when nothing can be taken over; otherwise
    the buffer the path ends at, returned with its sleep-lock taken, or the
    caller left waiting for that lock. *)
Lemma bget_outcome s :
  wf s →
  match target (classify s) with
  | None => bget s = (Panic "bget: no buffers", after PNone s)
  | Some b =>
    ∃ e, bufs (after (classify s) s) !! b = Some e ∧
         bget s = match lock e with
                  | None => (Ret b, locked b e (after (classify s) s))
                  | Some _ => (Blocked b, after (classify s) s)
                  end
  end.
Proof.
  intros Hwf. rewrite (bget_run s Hwf).
  destruct (target (classify s)) as [b|] eqn:Ht.
  - pose proof (target_in_range s b Hwf Ht) as Hb.
    destruct (lookup_lt_is_Some_2 (bufs (after (classify s) s)) b) as [e He].
    { rewrite bufs_after_length. destruct Hwf as [-> _]. done. }
    exists e. split; [done|].
    replace (conclude (classify s)) with (finish b)
      by (destruct (classify s); simpl in Ht; [| | |done];
          by injection Ht as ->).
    by apply finish_run.
  - by destruct (classify s).
Qed.

(** *** The recycle path *)

Lemma classify_recycle s :
  (∀ j e, bufs s !! j = Some e → same_block d n e = false) →
  (∃ j e, bufs s !! j = Some e ∧ refcnt e = 0) →
  ∃ i, classify s = PRecycle i.
Proof.
  intros Hno (j & e & Hj & He). pose proof (classify_cases s) as H.
  destruct (classify s) as [k b|i|i|]; [| |by eauto|].
  - destruct H as (_ & (e' & He' & Hs) & _). rewrite (Hno b e') in Hs; done.
  - destruct H as (_ & (e' & He' & Hs) & _). rewrite (Hno i e') in Hs; done.
  - destruct H as (_ & _ & Hall). by apply (Forall_lookup_1 _ _ _ _ Hall) in Hj.
Qed.

(** The path depends on the identities and the reference counts only: two
    caches that differ in nothing but the [time] fields take the same one. *)
Lemma classify_time s s' :
  bucket s' = bucket s →
  with_time 0 <$> bufs s' = with_time 0 <$> bufs s →
  classify s' = classify s.
Proof.
  intros Hk Hb. unfold classify. rewrite Hk.
  assert (∀ b, bucket_hits s' b = bucket_hits s b) as Hh.
  { intros b. unfold bucket_hits.
    assert (with_time 0 <$> bufs s' !! b = with_time 0 <$> bufs s !! b) as E.
    { by rewrite <- !list_lookup_fmap, Hb. }
    destruct (bufs s' !! b), (bufs s !! b); simpl in E; try done.
    injection E as _ Hd Hn _ _ _. simpl. unfold same_block.
    by rewrite Hd, Hn. }
  rewrite (list_find_ext (λ b, bucket_hits s' b = true)
             (λ b, bucket_hits s b = true)) by (intros b; by rewrite Hh).
  destruct (list_find _ (bucket s)) as [[k b]|]; [done|].
  pose proof (list_find_index_erase (λ e, same_block d n e = true)
                (with_time 0) (bufs s') (bufs s)) as E1.
  pose proof (list_find_index_erase (λ e, refcnt e = 0)
                (with_time 0) (bufs s') (bufs s)) as E2.
  destruct (list_find _ (bufs s')) as [[i e]|],
           (list_find _ (bufs s)) as [[i0 e0]|];
    try (by discriminate E1); [by injection (E1 ltac:(done) Hb) as ->|].
  destruct (list_find _ (bufs s')) as [[i e]|],
           (list_find _ (bufs s)) as [[i0 e0]|];
    try (by discriminate E2); [by injection (E2 ltac:(done) Hb) as ->|done].
Qed.

(** C1: when no buffer holds the block and some buffer is unused, [bget]
    takes over the first buffer of [bcache.buf] whose [refcnt] is 0: that
    buffer gets the new [dev] and [blockno], [valid = 0], [refcnt = 1] and
    [time = ticks], and is returned with its sleep-lock taken (the caller
    waits if that lock is held).  The [time] fields play no part in the
    choice: whatever they are, the same buffer is taken. *)
Theorem bget_recycles_first_unused s :
  wf s →
  (∀ j e, bufs s !! j = Some e → same_block d n e = false) →
  (∃ j e, bufs s !! j = Some e ∧ refcnt e = 0) →
  ∃ i e,
    bufs s !! i = Some e ∧ refcnt e = 0 ∧
    (∀ j e', bufs s !! j = Some e' → refcnt e' = 0 → (i ≤ j)%nat) ∧
    bget s =
      match lock e with
      | None =>
        (Ret i,
         put_trace (trace s ++ lock_pairs 0 NBUCKET ++
                    [EAcquire LBcache; ERelease LBcache; EAcquireSleep i])
           (put_bufs (<[i := mkBuf false d n (Some (pid s)) 1 (ticks s)
                              (data e)]> (bufs s)) s))
      | Some _ =>
        (Blocked i,
         put_trace (trace s ++ lock_pairs 0 NBUCKET ++
                    [EAcquire LBcache; ERelease LBcache])
           (put_bufs (<[i := mkBuf false d n (lock e) 1 (ticks s)
                              (data e)]> (bufs s)) s))
      end ∧
    (∀ s', wf s' → bucket s' = bucket s →
       with_time 0 <$> bufs s' = with_time 0 <$> bufs s →
       ∃ o s1, bget s' = (o, s1) ∧ (o = Ret i ∨ o = Blocked i)).
Proof.
  intros Hwf Hno Hfree.
  destruct (classify_recycle s Hno Hfree) as [i Hc].
  pose proof (classify_cases s) as H. rewrite Hc in H.
  destruct H as (_ & _ & (e & Hi & He) & Hlow).
  exists i, e. split; [done|]. split; [done|]. split.
  { intros j e' Hj He'. destruct (decide (i ≤ j)%nat) as [|Hlt]; [done|].
    exfalso. apply (Hlow j e' Hj); [lia|done]. }
  split.
  - pose proof (bget_outcome s Hwf) as H. rewrite Hc in H. simpl in H.
    destruct H as (e1 & He1 & ->).
    rewrite list_lookup_alter_eq, Hi in He1. injection He1 as <-.
    rewrite <- (insert_alter _ _ _ e) by done.
    simpl. destruct (lock e) eqn:Hl; unfold locked; norm;
      unfold with_lock, with_time, with_refcnt, with_valid, with_blockno,
        with_dev; simpl; by rewrite ?Hl.
  - intros s' Hwf' Hk Hb.
    pose proof (bget_outcome s' Hwf') as H.
    rewrite (classify_time s s' Hk Hb), Hc in H. simpl in H.
    destruct H as (e1 & _ & ->). destruct (lock e1); eauto.
Qed.

(** *** Every way [bget] can end *)

Lemma bget_inv s o s' :
  wf s → bget s = (o, s') →
  (classify s = PNone ∧ o = Panic "bget: no buffers" ∧ s' = after PNone s) ∨
  (∃ b e, target (classify s) = Some b ∧
          bufs (after (classify s) s) !! b = Some e ∧
          ((lock e = None ∧ o = Ret b ∧
            s' = locked b e (after (classify s) s)) ∨
           (lock e ≠ None ∧ o = Blocked b ∧ s' = after (classify s) s))).
Proof.
  intros Hwf E. pose proof (bget_outcome s Hwf) as H.
  destruct (target (classify s)) as [b|] eqn:Ht.
  - right. destruct H as (e & He & E'). exists b, e. split; [done|].
    split; [done|]. rewrite E in E'.
    destruct (lock e); injection E' as -> ->; [right|left]; done.
  - left. rewrite E in H. injection H as -> ->.
    by destruct (classify s).
Qed.

Definition in_bucket (s : state) : Prop :=
  ∃ k b, bucket s !! k = Some b ∧ bucket_hits s b = true.
Definition cached (s : state) : Prop :=
  ∃ i e, bufs s !! i = Some e ∧ same_block d n e = true.

Lemma classify_bucket_iff s :
  (∃ k b, classify s = PBucket k b) ↔ in_bucket s.
Proof.
  pose proof (classify_cases s) as H. split.
  - intros (k & b & Hc). rewrite Hc in H.
    destruct H as (Hk & (e & He & Hs) & _). exists k, b. split; [done|].
    unfold bucket_hits. by rewrite He.
  - intros (k & b & Hk & Hb).
    destruct (classify s) as [k' b'|i|i|]; [by eauto|..];
      destruct H as (Hall & _);
      apply (Forall_lookup_1 _ _ _ _ Hall) in Hk; congruence.
Qed.

Lemma classify_scan_iff s :
  (∃ i, classify s = PScan i) ↔ cached s ∧ ¬ in_bucket s.
Proof.
  pose proof (classify_cases s) as H. split.
  - intros (i & Hc). rewrite Hc in H. destruct H as (Hall & (e & He & Hs) & _).
    split; [by exists i, e|]. intros (k & b & Hk & Hb).
    apply (Forall_lookup_1 _ _ _ _ Hall) in Hk. congruence.
  - intros [(i & e & Hi & He) Hnb].
    destruct (classify s) as [k' b'|i'|i'|] eqn:Hc; [|by eauto|..].
    + exfalso. apply Hnb, classify_bucket_iff. eauto.
    + destruct H as (_ & Hall & _).
      apply (Forall_lookup_1 _ _ _ _ Hall) in Hi. congruence.
    + destruct H as (_ & Hall & _).
      apply (Forall_lookup_1 _ _ _ _ Hall) in Hi. congruence.
Qed.

(** The lock events of each path, after the buckets it went through. *)
Definition visited (p : path) : nat :=
  match p with
  | PBucket k _ => S k
  | _ => NBUCKET
  end.
Definition tail_locks (p : path) : list event :=
  match p with
  | PBucket _ _ => []
  | PScan i => scan_locks (i mod NBUCKET)
  | PRecycle _ => [EAcquire LBcache; ERelease LBcache]
  | PNone => [EAcquire LBcache]
  end.

Lemma after_trace p s :
  trace (after p s) = trace s ++ lock_pairs 0 (visited p) ++ tail_locks p.
Proof. destruct p; simpl; by rewrite ?app_nil_r. Qed.

(** C3 (as the code has it): along every run of [bget] the locks are taken
    in one order.  [bcache.lock] is acquired only when no bucket lock is
    held, a bucket lock is acquired either alone or under [bcache.lock], and
    the sleep-lock is asked for with no spinlock held; when [bget] returns
    or leaves the caller waiting, no spinlock is held.  [bcache.lock] and a
    bucket lock are held together exactly on the path where the scan of the
    whole array finds the block and puts it into its bucket. *)
Theorem bget_lock_order s o s' :
  wf s → bget s = (o, s') →
  ∃ tr, trace s' = trace s ++ tr ∧
        ordered [] tr = true ∧
        foldl step [] tr = (if o is Panic _ then [LBcache] else []) ∧
        (never_both [] tr = false ↔ cached s ∧ ¬ in_bucket s).
Proof.
  intros Hwf E. pose proof (classify_scan_iff s) as Hscan.
  destruct (bget_inv s o s' Hwf E)
    as [(Hc & -> & ->)|(b & e & Ht & He & [(Hl & -> & ->)|(Hl & -> & ->)])].
  - exists (lock_pairs 0 NBUCKET ++ [EAcquire LBcache]).
    split; [done|]. rewrite ordered_pairs, never_both_pairs, held_pairs.
    split; [done|]. split; [done|]. rewrite <- Hscan, Hc.
    split; [done|]. by intros [i ?].
  - exists (lock_pairs 0 (visited (classify s)) ++
            tail_locks (classify s) ++ [EAcquireSleep b]).
    split. { simpl. rewrite after_trace. by rewrite <- !app_assoc. }
    rewrite ordered_pairs, never_both_pairs, held_pairs, <- Hscan.
    destruct (classify s) as [k b'|i|i|]; [| | |done]; simpl tail_locks.
    + split; [done|]. split; [done|]. split; [done|]. by intros [i ?].
    + rewrite ordered_scan, never_both_scan, held_scan.
      split; [done|]. split; [done|]. split; [by eauto|done].
    + split; [done|]. split; [done|]. split; [done|]. by intros [i' ?].
  - exists (lock_pairs 0 (visited (classify s)) ++
            tail_locks (classify s) ++ []).
    split. { rewrite after_trace. by rewrite app_nil_r. }
    rewrite ordered_pairs, never_both_pairs, held_pairs, <- Hscan.
    destruct (classify s) as [k b'|i|i|]; [| | |done]; simpl tail_locks.
    + split; [done|]. split; [done|]. split; [done|]. by intros [i ?].
    + rewrite ordered_scan, never_both_scan, held_scan.
      split; [done|]. split; [done|]. split; [by eauto|done].
    + split; [done|]. split; [done|]. split; [done|]. by intros [i' ?].
Qed.

(** *** Which paths write a bucket *)

Lemma in_bucket_cached s : in_bucket s → cached s.
Proof.
  intros (k & b & _ & Hb). unfold bucket_hits in Hb.
  destruct (bufs s !! b) as [e|] eqn:He; [|done]. by exists b, e.
Qed.

Lemma bucket_hits_locked b e s c :
  bufs s !! b = Some e →
  bucket_hits (locked b e s) c = bucket_hits s c.
Proof.
  intros He. unfold bucket_hits. simpl.
  destruct (decide (b = c)) as [->|Hne].
  - rewrite list_lookup_insert_eq by by eapply lookup_lt_Some.
    by rewrite He.
  - by rewrite list_lookup_insert_ne.
Qed.

Lemma bucket_hits_recycled i s c :
  (∀ j e, bufs s !! j = Some e → same_block d n e = false) →
  (i < length (bufs s))%nat →
  bucket_hits (after (PRecycle i) s) c = bool_decide (c = i).
Proof.
  intros Hno Hi. unfold bucket_hits. simpl.
  destruct (lookup_lt_is_Some_2 _ _ Hi) as [e He].
  case_bool_decide as Hc.
  - subst c. rewrite list_lookup_alter_eq, He. simpl.
    unfold same_block. simpl. by rewrite !Z.eqb_refl.
  - rewrite list_lookup_alter_ne by done.
    destruct (bufs s !! c) as [e'|] eqn:He'; [|done]. simpl. eauto.
Qed.

(** C10 (as the code has it): [bget] writes a bucket on one path only, the
    one where the scan of the whole array finds the block at index [i], and
    then it is bucket [i mod NBUCKET] that is made to point to [i].  On the
    path that takes over an unused buffer no bucket is written; the buffer
    taken over is found by the bucket loop from then on exactly when some
    bucket pointed to it already. *)
Theorem bget_bucket_frame s o s' :
  wf s → bget s = (o, s') →
  (in_bucket s → bucket s' = bucket s) ∧
  (¬ cached s → bucket s' = bucket s) ∧
  (cached s → ¬ in_bucket s →
   ∃ i e, bufs s !! i = Some e ∧ same_block d n e = true ∧
          (∀ j y, bufs s !! j = Some y → (j < i)%nat →
                  same_block d n y = false) ∧
          bucket s' = <[(i mod NBUCKET)%nat := i]> (bucket s)) ∧
  (¬ cached s → ∀ i, o = Ret i ∨ o = Blocked i →
   (in_bucket s' ↔ ∃ k, bucket s !! k = Some i)).
Proof.
  intros Hwf E.
  pose proof (classify_scan_iff s) as Hscan.
  pose proof (classify_bucket_iff s) as Hbk.
  pose proof (classify_cases s) as Hcs.
  assert (bucket s' = bucket (after (classify s) s)) as Hb.
  { destruct (bget_inv s o s' Hwf E)
      as [(Hc & -> & ->)|(b & e & Ht & He & [(Hl & -> & ->)|(Hl & -> & ->)])];
      [by rewrite Hc|done|done]. }
  split; [|split; [|split]].
  - intros (k & b & Hc)%Hbk. by rewrite Hb, Hc.
  - intros Hnc. rewrite Hb.
    destruct (classify s) as [k b|i|i|] eqn:Hc; try done.
    exfalso. apply Hnc. apply Hscan. eauto.
  - intros Hc Hnb. destruct (proj2 Hscan (conj Hc Hnb)) as [i Hi].
    rewrite Hi in Hcs, Hb. destruct Hcs as (_ & (e & He & Hs) & Hlow).
    exists i, e. done.
  - intros Hnc i Ho.
    assert (∀ j e, bufs s !! j = Some e → same_block d n e = false) as Hno.
    { intros j e Hj. destruct (same_block d n e) eqn:Hs; [|done].
      exfalso. apply Hnc. by exists j, e. }
    destruct (bget_inv s o s' Hwf E)
      as [(Hc & -> & ->)|(b & e & Ht & He & Hcase)];
      [by destruct Ho|].
    assert (b = i ∧ (o = Ret b → s' = locked b e (after (classify s) s)) ∧
            (o = Blocked b → s' = after (classify s) s)) as (-> & HR & HB).
    { destruct Hcase as [(_ & -> & ->)|(_ & -> & ->)];
        destruct Ho as [[=]|[=]]; by subst. }
    destruct (classify s) as [k b|i'|i'|] eqn:Hc; simpl in Ht; try done.
    { exfalso. apply Hnc, in_bucket_cached, Hbk. eauto. }
    { exfalso. apply Hnc. apply Hscan. eauto. }
    injection Ht as ->.
    assert (i < length (bufs s))%nat as Hi.
    { rewrite <- (bufs_after_length (PRecycle i)). by eapply lookup_lt_Some. }
    assert (∀ c, bucket_hits s' c = bool_decide (c = i)) as Hh.
    { intros c. destruct Ho as [->| ->].
      - rewrite HR by done. rewrite bucket_hits_locked by done.
        by apply bucket_hits_recycled.
      - rewrite HB by done. by apply bucket_hits_recycled. }
    unfold in_bucket. rewrite Hb. simpl. split.
    + intros (k & c & Hk & Hc'). rewrite Hh in Hc'.
      apply bool_decide_eq_true in Hc'. subst c. eauto.
    + intros (k & Hk). exists k, i. split; [done|]. rewrite Hh.
      by apply bool_decide_eq_true.
Qed.

(** *** [bread] *)

Lemma same_block_eq e : same_block d n e = true ↔ dev e = d ∧ blockno e = n.
Proof. unfold same_block. rewrite andb_true_iff, !Z.eqb_eq. done. Qed.

Lemma after_target s b e :
  target (classify s) = Some b →
  bufs (after (classify s) s) !! b = Some e →
  dev e = d ∧ blockno e = n ∧
  ∃ e0, bufs s !! b = Some e0 ∧ lock e = lock e0.
Proof.
  intros Ht He. pose proof (classify_cases s) as H.
  destruct (classify s) as [k b'|i|i|]; simpl in Ht; [| | |done];
    injection Ht as ->; simpl in He; rewrite list_lookup_alter_eq in He.
  - destruct H as (_ & (e0 & He0 & Hs) & _). rewrite He0 in He.
    injection He as <-. apply same_block_eq in Hs as [? ?]. eauto.
  - destruct H as (_ & (e0 & He0 & Hs) & _). rewrite He0 in He.
    injection He as <-. apply same_block_eq in Hs as [? ?]. eauto.
  - destruct H as (_ & _ & (e0 & He0 & _) & _). rewrite He0 in He.
    injection He as <-. eauto.
Qed.

Lemma after_pid p s : pid (after p s) = pid s.
Proof. by destruct p. Qed.

(** What a returning [bget] hands over: the buffer of the block, with its
    sleep-lock held by the caller. *)
Lemma bget_returns s b s1 :
  wf s → bget s = (Ret b, s1) →
  ∃ e, bufs s1 !! b = Some e ∧ dev e = d ∧ blockno e = n ∧
       lock e = Some (pid s).
Proof.
  intros Hwf E.
  destruct (bget_inv s _ _ Hwf E)
    as [(_ & [=] & _)|(b' & e & Ht & He & [(Hl & [= <-] & ->)|(_ & [=] & _)])].
  destruct (after_target s b e Ht He) as (Hd & Hn & _).
  exists (with_lock (Some (pid s)) e). simpl. rewrite after_pid.
  split; [|done]. apply list_lookup_insert_eq. by eapply lookup_lt_Some.
Qed.

(** With a buffer to give and no sleep-lock taken, [bget] returns. *)
Lemma bget_total s :
  wf s →
  (cached s ∨ ∃ j e, bufs s !! j = Some e ∧ refcnt e = 0) →
  (∀ j e, bufs s !! j = Some e → lock e = None) →
  ∃ b s1, bget s = (Ret b, s1).
Proof.
  intros Hwf Hsome Hfree. pose proof (bget_outcome s Hwf) as H.
  destruct (target (classify s)) as [b|] eqn:Ht.
  - destruct H as (e & He & ->).
    destruct (after_target s b e Ht He) as (_ & _ & e0 & He0 & ->).
    rewrite (Hfree b e0 He0). eauto.
  - exfalso. pose proof (classify_cases s) as Hc.
    destruct (classify s); simpl in Ht; try done.
    destruct Hc as (_ & Hne & Hbusy).
    destruct Hsome as [(i & e & Hi & He)|(i & e & Hi & He)].
    + apply (Forall_lookup_1 _ _ _ _ Hne) in Hi. congruence.
    + by apply (Forall_lookup_1 _ _ _ _ Hbusy) in Hi.
Qed.

(** The buffer [b] after [virtio_disk_rw(b, 0)] and [b->valid = 1]. *)
Definition filled (b : nat) (e : buf) (s : state) : state :=
  put_trace (trace s ++ [EDiskRW b false])
    (put_bufs (<[b := with_valid true
                       (with_data (default [] (disk s !! (dev e, blockno e)))
                          e)]> (bufs s)) s).

Lemma bread_run s :
  bread s =
  match bget s with
  | (Ret b, s1) =>
    match bufs s1 !! b with
    | Some e => (Ret b, if valid e then s1 else filled b e s1)
    | None => (Fault, s1)
    end
  | (Panic m, s1) => (Panic m, s1)
  | (Fault, s1) => (Fault, s1)
  | (Blocked c, s1) => (Blocked c, s1)
  end.
Proof.
  unfold Bio.bread. unfold bind at 1.
  destruct (bget s) as [[b|m| |c] s1]; try done.
  unfold bind at 1. unfold get_buf at 1.
  destruct (bufs s1 !! b) as [e|] eqn:He; [|done].
  destruct (valid e) eqn:Hv; simpl; [done|].
  unfold virtio_disk_rw. run. rewrite (get_buf_run b e) by done. simpl.
  rewrite (upd_buf_run b e) by done. simpl.
  erewrite (upd_buf_run b)
    by (simpl; apply list_lookup_insert_eq; by eapply lookup_lt_Some).
  unfold filled. by norm.
Qed.

(** C4: [bread] is [bget] followed, when the buffer is not valid, by a read
    from the disk into the buffer and [valid = 1]; whenever it returns a
    buffer, that buffer is valid, holds the requested block and is locked by
    the caller.  It returns whenever [bget] does, which is the case when the
    block is cached or a buffer is unused and no sleep-lock stands in the
    way; a panic or a wait in [bget] is passed on unchanged. *)
Theorem bread_returns_valid s :
  wf s →
  (∀ b s', bread s = (Ret b, s') →
     ∃ e, bufs s' !! b = Some e ∧ valid e = true ∧
          dev e = d ∧ blockno e = n ∧ lock e = Some (pid s)) ∧
  (∀ b s1, bget s = (Ret b, s1) →
     ∃ e, bufs s1 !! b = Some e ∧
          bread s = (Ret b, if valid e then s1 else
            put_trace (trace s1 ++ [EDiskRW b false])
              (put_bufs (<[b := with_valid true
                                 (with_data (default [] (disk s1 !! (d, n)))
                                    e)]> (bufs s1)) s1))) ∧
  (∀ o s1, bget s = (o, s1) → (∀ b, o ≠ Ret b) → bread s = (o, s1)) ∧
  ((cached s ∨ ∃ j e, bufs s !! j = Some e ∧ refcnt e = 0) →
   (∀ j e, bufs s !! j = Some e → lock e = None) →
   ∃ b s', bread s = (Ret b, s')).
Proof.
  intros Hwf. split; [|split; [|split]].
  - intros b s' E. rewrite bread_run in E.
    destruct (bget s) as [[b1|m| |c] s1] eqn:Eg; try done.
    destruct (bget_returns s b1 s1 Hwf Eg) as (e & He & Hd & Hn & Hl).
    rewrite He in E. injection E as <- <-.
    destruct (valid e) eqn:Hv; [by exists e|].
    eexists. split.
    { simpl. apply list_lookup_insert_eq. by eapply lookup_lt_Some. }
    done.
  - intros b s1 Eg.
    destruct (bget_returns s b s1 Hwf Eg) as (e & He & Hd & Hn & Hl).
    exists e. split; [done|]. rewrite bread_run, Eg, He.
    unfold filled. by rewrite Hd, Hn.
  - intros o s1 Eg Ho. rewrite bread_run, Eg.
    destruct o as [b|m| |c]; try done. by destruct (Ho b).
  - intros Hsome Hfree.
    destruct (bget_total s Hwf Hsome Hfree) as (b & s1 & Eg).
    destruct (bget_returns s b s1 Hwf Eg) as (e & He & _).
    rewrite bread_run, Eg, He. eauto.
Qed.

(** *** Releasing and unpinning *)

Lemma holdingsleep_run b e s :
  bufs s !! b = Some e →
  holdingsleep b s = (Ret (bool_decide (lock e = Some (pid s))), s).
Proof.
  intros H. unfold holdingsleep. run. by rewrite (get_buf_run b e).
Qed.

(** [b] after [brelse]: unlocked, one reference less, and the time cleared
    when that was the last reference. *)
Definition released (e : buf) : buf :=
  mkBuf (valid e) (dev e) (blockno e) None (wrap32 (refcnt e - 1))
        (if wrap32 (refcnt e - 1) =? 0 then 0 else time e) (data e).

Lemma brelse_run b e s :
  bufs s !! b = Some e → lock e = Some (pid s) →
  brelse b s =
    (Ret tt,
     put_trace (trace s ++ [EReleaseSleep b; EAcquire LBcache; ERelease LBcache])
       (put_bufs (<[b := released e]> (bufs s)) s)).
Proof.
  intros Hb Hl. unfold brelse. unfold bind at 1.
  rewrite (holdingsleep_run b e) by done.
  rewrite bool_decide_true by done. simpl.
  unfold releasesleep. run.
  rewrite (upd_buf_run b e) by done. simpl.
  erewrite (upd_buf_run b)
    by (simpl; apply list_lookup_insert_eq; by eapply lookup_lt_Some).
  simpl. erewrite (get_buf_run b)
    by (simpl; rewrite list_insert_insert_eq;
        apply list_lookup_insert_eq; by eapply lookup_lt_Some).
  simpl. unfold released.
  destruct (wrap32 (refcnt e - 1) =? 0) eqn:Hz; simpl.
  - erewrite (upd_buf_run b)
      by (simpl; rewrite list_insert_insert_eq;
          apply list_lookup_insert_eq; by eapply lookup_lt_Some).
    by norm.
  - by norm.
Qed.

Lemma brelse_panics b e s :
  bufs s !! b = Some e → lock e ≠ Some (pid s) →
  brelse b s = (Panic "brelse", s).
Proof.
  intros Hb Hl. unfold brelse. unfold bind at 1.
  rewrite (holdingsleep_run b e) by done.
  by rewrite bool_decide_false.
Qed.

Lemma bwrite_panics b e s :
  bufs s !! b = Some e → lock e ≠ Some (pid s) →
  bwrite b s = (Panic "bwrite", s).
Proof.
  intros Hb Hl. unfold bwrite. unfold bind at 1.
  rewrite (holdingsleep_run b e) by done.
  by rewrite bool_decide_false.
Qed.

Lemma bwrite_run b e s :
  bufs s !! b = Some e → lock e = Some (pid s) →
  bwrite b s =
    (Ret tt, put_trace (trace s ++ [EDiskRW b true])
               (put_disk (<[(dev e, blockno e) := data e]> (disk s)) s)).
Proof.
  intros Hb Hl. unfold bwrite. unfold bind at 1.
  rewrite (holdingsleep_run b e) by done.
  rewrite bool_decide_true by done. simpl.
  unfold virtio_disk_rw. run. by rewrite (get_buf_run b e).
Qed.

Lemma bunpin_run b e s :
  bufs s !! b = Some e →
  bunpin b s =
    (Ret tt, put_trace (trace s ++ [EAcquire LBcache; ERelease LBcache])
               (put_bufs (<[b := with_refcnt (wrap32 (refcnt e - 1)) e]>
                            (bufs s)) s)).
Proof.
  intros Hb. unfold bunpin. run. rewrite (upd_buf_run b e) by done. by norm.
Qed.

Lemma bpin_run b e s :
  bufs s !! b = Some e →
  bpin b s =
    (Ret tt, put_trace (trace s ++ [EAcquire LBcache; ERelease LBcache])
               (put_bufs (<[b := with_refcnt (wrap32 (refcnt e + 1)) e]>
                            (bufs s)) s)).
Proof.
  intros Hb. unfold bpin. run. rewrite (upd_buf_run b e) by done. by norm.
Qed.

(** An unused buffer has its time cleared. *)
Definition timed (s : state) : Prop :=
  ∀ i e, bufs s !! i = Some e → refcnt e = 0 → time e = 0.

(** The reference counts are those of an [uint] that one more reference
    does not wrap. *)
Definition bounded (s : state) : Prop :=
  ∀ i e, bufs s !! i = Some e → 0 ≤ refcnt e < 2 ^ 32 - 1.

Lemma timed_alter f b s s' :
  timed s → bufs s' = alter f b (bufs s) →
  (∀ e, bufs s !! b = Some e → refcnt (f e) = 0 → time (f e) = 0) →
  timed s'.
Proof.
  intros Ht Hb Hf i e. rewrite Hb. destruct (decide (b = i)) as [->|Hne].
  - rewrite list_lookup_alter_eq.
    destruct (bufs s !! i) as [e0|] eqn:He0; [|done].
    intros [= <-]. by apply Hf.
  - rewrite list_lookup_alter_ne by done. apply Ht.
Qed.

Lemma timed_insert f b e s s' :
  timed s → bufs s !! b = Some e → bufs s' = <[b := f e]> (bufs s) →
  (refcnt (f e) = 0 → time (f e) = 0) →
  timed s'.
Proof.
  intros Ht He Hb Hf. rewrite (insert_alter _ _ _ _ He) in Hb.
  eapply timed_alter; [done..|]. intros e0 He0. by simplify_eq.
Qed.

Lemma timed_same s s' : timed s → bufs s' = bufs s → timed s'.
Proof. intros Ht Hb i e. rewrite Hb. apply Ht. Qed.

Lemma incr_nonzero r : 0 ≤ r < 2 ^ 32 - 1 → wrap32 (r + 1) ≠ 0.
Proof. intros H. rewrite wrap32_small; lia. Qed.

Lemma timed_after s :
  timed s → bounded s → timed (after (classify s) s).
Proof.
  intros Ht Hbd. destruct (classify s) as [k b|i|i|]; simpl.
  - eapply (timed_alter _ b s); [done..|]. intros e He Hz. simpl in Hz.
    by destruct (incr_nonzero (refcnt e) (Hbd b e He)).
  - eapply (timed_alter _ i s); [done..|]. intros e He Hz. simpl in Hz.
    by destruct (incr_nonzero (refcnt e) (Hbd i e He)).
  - eapply (timed_alter _ i s); [done..|]. by intros e He Hz.
  - by eapply timed_same.
Qed.

Lemma timed_bget s o s' :
  wf s → timed s → bounded s → bget s = (o, s') → timed s'.
Proof.
  intros Hwf Ht Hbd E. pose proof (timed_after s Ht Hbd) as Ha.
  destruct (bget_inv s o s' Hwf E)
    as [(Hc & -> & ->)|(b & e & _ & He & [(_ & -> & ->)|(_ & -> & ->)])].
  - by rewrite Hc in Ha.
  - eapply (timed_insert (with_lock (Some (pid (after (classify s) s))))
              b e (after (classify s) s)); [done|done|done|].
    simpl. intros Hz. by eapply Ha.
  - done.
Qed.

Lemma timed_bread s o s' :
  wf s → timed s → bounded s → bread s = (o, s') → timed s'.
Proof.
  intros Hwf Ht Hbd E. rewrite bread_run in E.
  destruct (bget s) as [o1 s1] eqn:Eg.
  pose proof (timed_bget s o1 s1 Hwf Ht Hbd Eg) as H1.
  destruct o1 as [b|m| |c]; try (by injection E as <- <-).
  destruct (bufs s1 !! b) as [e|] eqn:He; [|by injection E as <- <-].
  injection E as <- <-. destruct (valid e); [done|].
  eapply (timed_insert
            (λ e0, with_valid true
                     (with_data (default [] (disk s1 !! (dev e, blockno e)))
                        e0)) b e s1); [done|done|done|].
  simpl. by eapply H1.
Qed.

Lemma timed_brelse b s o s' :
  timed s → brelse b s = (o, s') → timed s'.
Proof.
  intros Ht E. destruct (bufs s !! b) as [e|] eqn:He.
  - destruct (decide (lock e = Some (pid s))) as [Hl|Hl].
    + rewrite (brelse_run b e) in E by done. injection E as <- <-.
      eapply (timed_insert released b e s); [done..|]. simpl.
      by intros ->.
    + rewrite (brelse_panics b e) in E by done. by injection E as <- <-.
  - unfold brelse, holdingsleep, get_buf in E. revert E. run.
    rewrite He. by intros [= <- <-].
Qed.

Lemma timed_bwrite b s o s' :
  timed s → bwrite b s = (o, s') → timed s'.
Proof.
  intros Ht E. destruct (bufs s !! b) as [e|] eqn:He.
  - destruct (decide (lock e = Some (pid s))) as [Hl|Hl].
    + rewrite (bwrite_run b e) in E by done. by injection E as <- <-.
    + rewrite (bwrite_panics b e) in E by done. by injection E as <- <-.
  - unfold bwrite, holdingsleep, get_buf in E. revert E. run.
    rewrite He. by intros [= <- <-].
Qed.

Lemma timed_bpin b s o s' :
  timed s → bounded s → bpin b s = (o, s') → timed s'.
Proof.
  intros Ht Hbd E. destruct (bufs s !! b) as [e|] eqn:He.
  - rewrite (bpin_run b e) in E by done. injection E as <- <-.
    eapply (timed_insert (λ e0, with_refcnt (wrap32 (refcnt e0 + 1)) e0) b e s);
      [done..|].
    simpl. intros Hz. by destruct (incr_nonzero (refcnt e) (Hbd b e He)).
  - unfold bpin, upd_buf, get_buf in E. revert E. run.
    rewrite He. intros [= <- <-]. by eapply timed_same.
Qed.

(** C2 (as the code has it): [brelse] clears the time of the buffer when
    its decrement brings the reference count to 0, and so keeps "an unused
    buffer has time 0"; so do [bget], [bread], [bwrite] and [bpin] while the
    counts do not wrap.  [bunpin] takes a reference away and leaves the time
    as it was, also when the count reaches 0. *)
Theorem brelse_clears_time_bunpin_keeps_it b e s :
  bufs s !! b = Some e →
  (lock e = Some (pid s) →
   ∃ s' e', brelse b s = (Ret tt, s') ∧ bufs s' = <[b := e']> (bufs s) ∧
            refcnt e' = wrap32 (refcnt e - 1) ∧
            time e' = (if refcnt e' =? 0 then 0 else time e)) ∧
  (∃ s' e', bunpin b s = (Ret tt, s') ∧ bufs s' = <[b := e']> (bufs s) ∧
            refcnt e' = wrap32 (refcnt e - 1) ∧ time e' = time e) ∧
  (timed s →
   (∀ o s', brelse b s = (o, s') → timed s') ∧
   (∀ o s', bwrite b s = (o, s') → timed s') ∧
   (wf s → bounded s →
    (∀ o s', bget s = (o, s') → timed s') ∧
    (∀ o s', bread s = (o, s') → timed s') ∧
    (∀ o s', bpin b s = (o, s') → timed s'))).
Proof.
  intros He. split; [|split].
  - intros Hl. rewrite (brelse_run b e) by done.
    do 2 eexists. split; [done|]. split; [done|]. done.
  - rewrite (bunpin_run b e) by done.
    do 2 eexists. split; [done|]. split; [done|]. done.
  - intros Ht. split; [by eauto using timed_brelse|].
    split; [by eauto using timed_bwrite|].
    intros Hwf Hbd.
    split; [by eauto using timed_bget|]. 
    split; [by eauto using timed_bread|by eauto using timed_bpin].
Qed.

(** *** The shape of the cache is kept *)

Lemma wf_bufs s s' :
  wf s → bucket s' = bucket s → length (bufs s') = length (bufs s) → wf s'.
Proof. intros (? & ? & ? & ?) Hk Hb. unfold wf. by rewrite Hk, Hb. Qed.

Lemma wf_after s : wf s → wf (after (classify s) s).
Proof.
  intros Hwf. pose proof (classify_cases s) as H.
  destruct (classify s) as [k b|i|i|] eqn:Hc;
    try (apply (wf_bufs s); [done|done|by simpl; rewrite ?length_alter]).
  destruct Hwf as (Hnb & Hnk & Hpos & Hin).
  destruct H as (_ & (e & He & _) & _).
  repeat split; simpl; rewrite ?length_alter, ?length_insert; try done.
  apply Forall_insert; [done|]. rewrite <- Hnb. by eapply lookup_lt_Some.
Qed.

Lemma wf_bget s o s' : wf s → bget s = (o, s') → wf s'.
Proof.
  intros Hwf E. pose proof (wf_after s Hwf) as Ha.
  destruct (bget_inv s o s' Hwf E)
    as [(Hc & -> & ->)|(b & e & _ & He & [(_ & -> & ->)|(_ & -> & ->)])].
  - by rewrite Hc in Ha.
  - apply (wf_bufs (after (classify s) s)); [done|done|].
    simpl. by rewrite length_insert.
  - done.
Qed.

Lemma wf_bread s o s' : wf s → bread s = (o, s') → wf s'.
Proof.
  intros Hwf E. rewrite bread_run in E.
  destruct (bget s) as [o1 s1] eqn:Eg.
  pose proof (wf_bget s o1 s1 Hwf Eg) as H1.
  destruct o1 as [b|m| |c]; try (by injection E as <- <-).
  destruct (bufs s1 !! b) as [e|] eqn:He; [|by injection E as <- <-].
  injection E as <- <-. destruct (valid e); [done|].
  apply (wf_bufs s1); [done|done|]. simpl. by rewrite length_insert.
Qed.

Lemma wf_brelse b s s' : wf s → brelse b s = (Ret tt, s') → wf s'.
Proof.
  intros Hwf E. destruct (bufs s !! b) as [e|] eqn:He.
  - destruct (decide (lock e = Some (pid s))) as [Hl|Hl].
    + rewrite (brelse_run b e) in E by done. injection E as <-.
      apply (wf_bufs s); [done|done|]. simpl. by rewrite length_insert.
    + by rewrite (brelse_panics b e) in E.
  - unfold brelse, holdingsleep, get_buf in E. revert E. run. by rewrite He.
Qed.

(** *** [binit] *)

Lemma init_buckets m : ∀ lo s,
  (lo + m ≤ length (bucket s))%nat →
  ∃ bk, for_each lo m (λ i, set_bucket i i) s = (Ret tt, put_bucket bk s) ∧
        length bk = length (bucket s) ∧
        (∀ k, (lo ≤ k < lo + m)%nat → bk !! k = Some k) ∧
        (∀ k, (k < lo)%nat → bk !! k = bucket s !! k).
Proof.
  induction m as [|m IH]; intros lo s Hlen; simpl.
  - exists (bucket s). split; [by destruct s|]. split; [done|].
    split; [intros k ?; lia|done].
  - unfold bind. rewrite set_bucket_run by lia.
    destruct (IH (S lo) (put_bucket (<[lo := lo]> (bucket s)) s))
      as (bk & E & Hl & Hin & Hout).
    { simpl. rewrite length_insert. lia. }
    exists bk. rewrite E. simpl in Hl, Hout. rewrite length_insert in Hl.
    split; [done|]. split; [done|]. split.
    + intros k Hk. destruct (decide (k = lo)) as [->|Hne].
      * rewrite Hout by lia. apply list_lookup_insert_eq. lia.
      * apply Hin. lia.
    + intros k Hk. rewrite Hout by lia. apply list_lookup_insert_ne. lia.
Qed.

Lemma init_bufs m : ∀ lo s,
  (∀ k, (lo ≤ k < lo + m)%nat → bufs s !! k = Some zero_buf) →
  for_each lo m (λ i, upd_buf i (with_lock None) ;;;
                      upd_buf i (with_time 0)) s = (Ret tt, s).
Proof.
  induction m as [|m IH]; intros lo s Hz; simpl; [done|].
  unfold bind at 1.
  rewrite (upd_buf_twice lo zero_buf) by (apply Hz; lia).
  change (with_time 0 (with_lock None zero_buf)) with zero_buf.
  rewrite list_insert_id by (apply Hz; lia).
  replace (put_bufs (bufs s) s) with s by by destruct s.
  apply IH. intros k Hk. apply Hz. lia.
Qed.

(** From zero-initialised memory [binit] gives a cache of the declared
    shape, bucket [k] pointing to buffer [k], every buffer unused. *)
Lemma binit_boot t p dk :
  (0 < NBUCKET ≤ NBUF)%nat →
  ∃ s, Bio.binit NBUF NBUCKET (boot NBUF NBUCKET t p dk) = (Ret tt, s) ∧
       wf s ∧ timed s ∧ bounded s ∧
       (∀ k, (k < NBUCKET)%nat → bucket s !! k = Some k) ∧
       bufs s = replicate NBUF zero_buf.
Proof.
  intros Hn. unfold Bio.binit. unfold bind at 1. unfold modify at 1.
  set (s0 := put_evict 0 _).
  destruct (init_buckets NBUCKET 0%nat s0) as (bk & E & Hl & Hin & _).
  { simpl. rewrite length_replicate. lia. }
  unfold bind. rewrite E.
  rewrite init_bufs.
  2:{ intros k Hk. simpl. apply lookup_replicate. split; [done|lia]. }
  eexists. split; [done|]. simpl in Hl. rewrite length_replicate in Hl.
  split; [|split; [|split; [|split]]].
  - repeat split; simpl; rewrite ?length_replicate; try done; try lia.
    apply Forall_lookup. intros k x Hx.
    assert (k < NBUCKET)%nat as Hk by (rewrite <- Hl; by eapply lookup_lt_Some).
    rewrite Hin in Hx by lia. injection Hx as <-. lia.
  - intros i e. simpl. by intros [-> _]%lookup_replicate.
  - intros i e. simpl. intros [-> _]%lookup_replicate. simpl. lia.
  - intros k Hk. simpl. apply Hin. lia.
  - done.
Qed.

End spec.

(** *** A cache of two buffers and one bucket *)

(** The cache right after [binit], with [ticks = 7], for process 1. *)
Definition cache0 : state := (binit 2 1 (boot 2 1 7 1 ∅)).2.

(** Both buffers hold a block and nobody uses them; the bucket points to
    the first. *)
Definition cache2 : state :=
  mkState [0%nat]
    [mkBuf true 1 10 None 0 0 []; mkBuf true 1 11 None 0 0 []] 0 7 1 ∅ [].

(** [cache0] after process 1 got block (1, 10). *)
Definition cache1 : state := (bget 2 1 1 10 cache0).2.

Lemma cache0_wf : wf 2 1 cache0.
Proof. repeat split; [lia|]. by repeat constructor. Qed.

Lemma cache2_wf : wf 2 1 cache2.
Proof. repeat split; [lia|]. by repeat constructor. Qed.

Lemma cache0_miss j e :
  bufs cache0 !! j = Some e → same_block 1 10 e = false.
Proof. destruct j as [|[|j]]; simpl; [| |done]; by intros [= <-]. Qed.

Example cache1_bufs :
  bufs cache1 = [mkBuf false 1 10 (Some 1) 1 7 []; mkBuf false 0 0 None 0 0 []].
Proof. reflexivity. Qed.

Lemma bget_recycles_first_unused_witness :
  ∃ i e,
    bufs cache0 !! i = Some e ∧ refcnt e = 0 ∧
    (∀ j e', bufs cache0 !! j = Some e' → refcnt e' = 0 → (i ≤ j)%nat) ∧
    bget 2 1 1 10 cache0 =
      match lock e with
      | None =>
        (Ret i,
         put_trace (trace cache0 ++ lock_pairs 0 1 ++
                    [EAcquire LBcache; ERelease LBcache; EAcquireSleep i])
           (put_bufs (<[i := mkBuf false 1 10 (Some (pid cache0)) 1
                              (ticks cache0) (data e)]> (bufs cache0)) cache0))
      | Some _ =>
        (Blocked i,
         put_trace (trace cache0 ++ lock_pairs 0 1 ++
                    [EAcquire LBcache; ERelease LBcache])
           (put_bufs (<[i := mkBuf false 1 10 (lock e) 1 (ticks cache0)
                              (data e)]> (bufs cache0)) cache0))
      end ∧
    (∀ s', wf 2 1 s' → bucket s' = bucket cache0 →
       with_time 0 <$> bufs s' = with_time 0 <$> bufs cache0 →
       ∃ o s1, bget 2 1 1 10 s' = (o, s1) ∧ (o = Ret i ∨ o = Blocked i)).
Proof.
  apply (bget_recycles_first_unused 2 1 1 10 cache0).
  - exact cache0_wf.
  - exact cache0_miss.
  - exists 0%nat, (mkBuf false 0 0 None 0 0 []). split; reflexivity.
Defined.

(** The first unused buffer is taken although another unused one carries
    the smaller time. *)
Example bget_recycle_ignores_time :
  (bget 2 1 1 12
     (mkState [0%nat]
        [mkBuf true 1 10 None 0 9 []; mkBuf true 1 11 None 0 0 []]
        0 7 1 ∅ [])).1 = Ret 0%nat.
Proof. reflexivity. Qed.

(** C3, as stated, fails: when the scan finds block (1, 11) in [cache2],
    the lock of bucket 0 is acquired while [bcache.lock] is held. *)
Lemma bget_scan_holds_both_locks :
  trace (bget 2 1 1 11 cache2).2 =
    [EAcquire (LBucket 0); ERelease (LBucket 0); EAcquire LBcache;
     EAcquire (LBucket 0); ERelease (LBucket 0); ERelease LBcache;
     EAcquireSleep 1] ∧
  foldl step [] (take 4 (trace (bget 2 1 1 11 cache2).2)) =
    [LBucket 0; LBcache] ∧
  never_both [] (trace (bget 2 1 1 11 cache2).2) = false.
Proof. repeat split; reflexivity. Qed.

Lemma bget_lock_order_witness :
  ∃ tr, trace (bget 2 1 1 11 cache2).2 = trace cache2 ++ tr ∧
        ordered [] tr = true ∧
        foldl step [] tr = [] ∧
        (never_both [] tr = false ↔
         cached 1 11 cache2 ∧ ¬ in_bucket 1 11 cache2).
Proof.
  apply (bget_lock_order 2 1 1 11 cache2 (Ret 1%nat)
           (bget 2 1 1 11 cache2).2).
  - exact cache2_wf.
  - by vm_compute.
Defined.

(** C10, as stated, fails: block (1, 10) is not cached in [cache0], so
    [bget] takes over buffer 0 and writes no bucket; bucket 0 points to
    buffer 0 all the same, and once the buffer is released the next [bget]
    for the block finds it in the bucket loop, without ever taking
    [bcache.lock] for a scan. *)
Lemma recycled_buffer_found_in_bucket :
  (∀ j e, bufs cache0 !! j = Some e → same_block 1 10 e = false) ∧
  bget 2 1 1 10 cache0 = (Ret 0%nat, cache1) ∧
  bucket cache1 = bucket cache0 ∧
  bucket cache1 !! 0%nat = Some 0%nat ∧
  bucket_hits 1 10 cache1 0 = true ∧
  ∃ s2 s3,
    brelse 0 cache1 = (Ret tt, s2) ∧
    bget 2 1 1 10 s2 = (Ret 0%nat, s3) ∧
    trace s3 = trace s2 ++
      [EAcquire (LBucket 0); ERelease (LBucket 0); EAcquireSleep 0].
Proof.
  split; [exact cache0_miss|].
  do 4 (split; [by vm_compute|]).
  exists (brelse 0 cache1).2, (bget 2 1 1 10 (brelse 0 cache1).2).2.
  split; [by vm_compute|]. split; by vm_compute.
Qed.

Lemma bget_bucket_frame_witness :
  (in_bucket 1 10 cache0 → bucket cache1 = bucket cache0) ∧
  (¬ cached 1 10 cache0 → bucket cache1 = bucket cache0) ∧
  (cached 1 10 cache0 → ¬ in_bucket 1 10 cache0 →
   ∃ i e, bufs cache0 !! i = Some e ∧ same_block 1 10 e = true ∧
          (∀ j y, bufs cache0 !! j = Some y → (j < i)%nat →
                  same_block 1 10 y = false) ∧
          bucket cache1 = <[(i mod 1)%nat := i]> (bucket cache0)) ∧
  (¬ cached 1 10 cache0 → ∀ i, Ret 0%nat = Ret i ∨ Ret 0%nat = Blocked i →
   (in_bucket 1 10 cache1 ↔ ∃ k, bucket cache0 !! k = Some i)).
Proof.
  apply (bget_bucket_frame 2 1 1 10 cache0 (Ret 0%nat) cache1).
  - exact cache0_wf.
  - by vm_compute.
Defined.

Lemma bread_returns_valid_witness :
  (∀ b s', bread 2 1 1 10 cache0 = (Ret b, s') →
     ∃ e, bufs s' !! b = Some e ∧ valid e = true ∧
          dev e = 1 ∧ blockno e = 10 ∧ lock e = Some (pid cache0)) ∧
  (∀ b s1, bget 2 1 1 10 cache0 = (Ret b, s1) →
     ∃ e, bufs s1 !! b = Some e ∧
          bread 2 1 1 10 cache0 = (Ret b, if valid e then s1 else
            put_trace (trace s1 ++ [EDiskRW b false])
              (put_bufs (<[b := with_valid true
                                 (with_data (default [] (disk s1 !! (1, 10)))
                                    e)]> (bufs s1)) s1))) ∧
  (∀ o s1, bget 2 1 1 10 cache0 = (o, s1) → (∀ b, o ≠ Ret b) →
     bread 2 1 1 10 cache0 = (o, s1)) ∧
  ((cached 1 10 cache0 ∨ ∃ j e, bufs cache0 !! j = Some e ∧ refcnt e = 0) →
   (∀ j e, bufs cache0 !! j = Some e → lock e = None) →
   ∃ b s', bread 2 1 1 10 cache0 = (Ret b, s')).
Proof.
  apply (bread_returns_valid 2 1 1 10 cache0). exact cache0_wf.
Defined.

Example bread_cache0 :
  ∃ s', bread 2 1 1 10 cache0 = (Ret 0%nat, s') ∧
        bufs s' !! 0%nat = Some (mkBuf true 1 10 (Some 1) 1 7 []) ∧
        trace s' = trace cache1 ++ [EDiskRW 0 false].
Proof.
  exists (bread 2 1 1 10 cache0).2. split; [by vm_compute|].
  split; by vm_compute.
Qed.

(** C2, as stated, fails for [bunpin]: in [cache1] buffer 0 has one
    reference and time 7; [bunpin] brings the count to 0 and the time stays
    7. *)
Lemma bunpin_leaves_time :
  ∃ s' e', bunpin 0 cache1 = (Ret tt, s') ∧ bufs s' !! 0%nat = Some e' ∧
           refcnt e' = 0 ∧ time e' = 7.
Proof.
  exists (bunpin 0 cache1).2, (mkBuf false 1 10 (Some 1) 0 7 []).
  split; [by vm_compute|]. split; [by vm_compute|]. done.
Qed.

Lemma brelse_clears_time_bunpin_keeps_it_witness :
  (Some 1 = Some (pid cache1) →
   ∃ s' e', brelse 0 cache1 = (Ret tt, s') ∧
            bufs s' = <[0%nat := e']> (bufs cache1) ∧
            refcnt e' = wrap32 (1 - 1) ∧
            time e' = (if refcnt e' =? 0 then 0 else 7)) ∧
  (∃ s' e', bunpin 0 cache1 = (Ret tt, s') ∧
            bufs s' = <[0%nat := e']> (bufs cache1) ∧
            refcnt e' = wrap32 (1 - 1) ∧ time e' = 7) ∧
  (timed cache1 →
   (∀ o s', brelse 0 cache1 = (o, s') → timed s') ∧
   (∀ o s', bwrite 0 cache1 = (o, s') → timed s') ∧
   (wf 2 1 cache1 → bounded cache1 →
    (∀ o s', bget 2 1 1 10 cache1 = (o, s') → timed s') ∧
    (∀ o s', bread 2 1 1 10 cache1 = (o, s') → timed s') ∧
    (∀ o s', bpin 0 cache1 = (o, s') → timed s'))).
Proof.
  apply (brelse_clears_time_bunpin_keeps_it 2 1 1 10 0
           (mkBuf false 1 10 (Some 1) 1 7 []) cache1).
  by vm_compute.
Defined.
End BioSpec.

(** ** Misuse of the two interfaces *)

(** C8: [bwrite] and [brelse] on a buffer whose sleep-lock the caller does
    not hold, and [kfree] of an address that is not page-aligned or lies
    outside [end, PHYSTOP), panic in the very state they were called in:
    nothing was written to the disk, no lock released, no reference count
    or free list changed. *)
Theorem misuse_panics_before_any_effect :
  (∀ b e (s : Bio.state),
     Bio.bufs s !! b = Some e → Bio.lock e ≠ Some (Bio.pid s) →
     Bio.bwrite b s = (Panic "bwrite", s) ∧
     Bio.brelse b s = (Panic "brelse", s)) ∧
  (∀ (PGSIZE NMEM PHYSTOP end_ : Z) (NCPU : nat) pa (s : Kalloc.state),
     (pa mod PGSIZE ≠ 0 ∨ pa < end_ ∨ PHYSTOP ≤ pa)%Z →
     Kalloc.kfree PGSIZE NMEM PHYSTOP end_ NCPU pa s = (Panic "kfree", s)).
Proof.
  split.
  - intros b e s Hb Hl. split.
    + by apply (BioSpec.bwrite_panics b e).
    + by apply (BioSpec.brelse_panics b e).
  - intros PGSIZE NMEM PHYSTOP end_ NCPU pa s H.
    apply KallocSpec.kfree_panics. by apply KallocSpec.kfree_rejects_true.
Qed.

Lemma misuse_panics_before_any_effect_witness :
  (Bio.bwrite 0 BioSpec.cache0 = (Panic "bwrite", BioSpec.cache0) ∧
   Bio.brelse 0 BioSpec.cache0 = (Panic "brelse", BioSpec.cache0)) ∧
  Kalloc.kfree 4096 16384 4128768 4096000 2 4096001 KallocSpec.two_cores
    = (Panic "kfree", KallocSpec.two_cores) ∧
  Kalloc.kfree 4096 16384 4128768 4096000 2 4128768 KallocSpec.two_cores
    = (Panic "kfree", KallocSpec.two_cores).
Proof.
  destruct misuse_panics_before_any_effect as [Hb Hk]. split; [|split].
  - apply (Hb 0%nat (Bio.mkBuf false 0 0 None 0 0 [])); [by vm_compute|done].
  - apply Hk. left. by vm_compute.
  - apply Hk. right. right. by vm_compute.
Defined.

(** ** More on the page allocator: [kinit], the two ways of [kalloc], and
    what the free lists hold *)

Module KallocMore.
Import Kalloc KallocSpec.
Local Open Scope Z_scope.

(** The [kmem] lock held after an event, given the one held before it, or
    nothing when the event breaks the discipline: a lock is acquired only
    with none held, released only when held, and [kmem[i].freelist] is
    written only with the lock of [kmem[i]] held. *)
Definition guard (h : option nat) (e : event) : option (option nat) :=
  match e with
  | EAcquire i => if h is None then Some (Some i) else None
  | ERelease i => if decide (h = Some i) then Some None else None
  | EStore i => if decide (h = Some i) then Some h else None
  | _ => Some h
  end.

Fixpoint guarded (h : option nat) (tr : list event) : option (option nat) :=
  match tr with
  | [] => Some h
  | e :: tr' => match guard h e with
                | Some h' => guarded h' tr'
                | None => None
                end
  end.

Lemma guarded_app tr1 : ∀ h h' tr2,
  guarded h tr1 = Some h' → guarded h (tr1 ++ tr2) = guarded h' tr2.
Proof.
  induction tr1 as [|e tr1 IH]; intros h h' tr2; simpl.
  - by intros [= ->].
  - destruct (guard h e); [apply IH|done].
Qed.

Lemma guarded_pop i : guarded None [EAcquire i; EStore i; ERelease i] = Some None.
Proof. simpl. by rewrite !decide_True. Qed.

Lemma guarded_look i : guarded None [EAcquire i; ERelease i] = Some None.
Proof. simpl. by rewrite !decide_True. Qed.

Section more.
Variables (PGSIZE NMEM PHYSTOP end_ : Z) (NCPU : nat).

Abbreviation kfree := (Kalloc.kfree PGSIZE NMEM PHYSTOP end_ NCPU).
Abbreviation kfree_rejects := (Kalloc.kfree_rejects PGSIZE PHYSTOP end_).
Abbreviation owner := (Kalloc.owner NMEM end_).
Abbreviation kalloc := (Kalloc.kalloc NCPU).
Abbreviation kinit := (Kalloc.kinit PGSIZE NMEM PHYSTOP end_ NCPU).
Abbreviation wf := (KallocSpec.wf NCPU).
Abbreviation owned := (KallocSpec.owned PGSIZE NMEM PHYSTOP end_).

(** *** Pages are neither lost nor doubled *)

Lemma concat_insert_pop (ls : list (list Z)) (j : nat) p l :
  ls !! j = Some (p :: l) → p :: concat (<[j := l]> ls) ≡ₚ concat ls.
Proof.
  intros H. rewrite <- (take_drop_middle ls j (p :: l) H) at 2.
  rewrite insert_take_drop by by eapply lookup_lt_Some.
  rewrite !concat_app, !concat_cons. simpl.
  by rewrite (Permutation_middle (concat (take j ls))).
Qed.

Lemma concat_insert_push (ls : list (list Z)) (j : nat) p l :
  ls !! j = Some l → concat (<[j := p :: l]> ls) ≡ₚ p :: concat ls.
Proof.
  intros H. symmetry. rewrite <- (concat_insert_pop (<[j := p :: l]> ls) j p l).
  - by rewrite list_insert_insert_eq, list_insert_id.
  - apply list_lookup_insert_eq. by eapply lookup_lt_Some.
Qed.

Lemma kfree_kmem pa s s' :
  kfree pa s = (Ret tt, s') →
  ∃ (i : nat) l, owner pa = Z.of_nat i ∧ kmem s !! i = Some l ∧
                 kmem s' = <[i := pa :: l]> (kmem s) ∧ tp s' = tp s.
Proof.
  unfold Kalloc.kfree. destruct (kfree_rejects pa); [done|].
  KallocSpec.run. unfold Kalloc.index. case_bool_decide as Hi; [|done].
  unfold freelist. simpl.
  destruct (kmem s !! Z.to_nat (owner pa)) as [l|] eqn:Hl; [|done].
  simpl. intros [= <-]. exists (Z.to_nat (owner pa)), l.
  split; [lia|done].
Qed.

Lemma concat_all_empty (ls : list (list Z)) :
  Forall (λ l, l = []) ls → concat ls = [].
Proof. induction 1 as [|x ls -> _ IH]; [done|]. by simpl. Qed.

(** X1: pages are neither lost nor doubled.  A [kfree] that goes through,
    of a page that is on no free list, adds that page, once, to what the
    free lists hold; a [kalloc] that returns a page takes exactly that page
    away, and one that returns null found nothing on any list.  So when no
    page is on the lists twice, that stays so after such a [kfree] and
    after [kalloc], and the page [kalloc] hands out is on no list. *)
Theorem free_pages_conserved s :
  wf s →
  (∀ pa s', pa ∉ concat (kmem s) → kfree pa s = (Ret tt, s') →
     concat (kmem s') ≡ₚ pa :: concat (kmem s) ∧
     (NoDup (concat (kmem s)) → NoDup (concat (kmem s')))) ∧
  (∀ r s', kalloc s = (Ret r, s') →
     match r with
     | Some p => p :: concat (kmem s') ≡ₚ concat (kmem s)
     | None => concat (kmem s) = [] ∧ kmem s' = kmem s
     end ∧
     (NoDup (concat (kmem s)) →
      NoDup (concat (kmem s')) ∧ ∀ p, r = Some p → p ∉ concat (kmem s'))).
Proof.
  intros Hwf. split.
  - intros pa s' Hnew E.
    destruct (kfree_kmem pa s s' E) as (i & l & _ & Hl & -> & _).
    pose proof (concat_insert_push (kmem s) i pa l Hl) as Hp.
    split; [done|]. intros Hnd. rewrite Hp. by apply NoDup_cons.
  - intros r s' E.
    destruct (kalloc_cases NCPU s Hwf) as (r0 & s0 & E0 & _ & H).
    rewrite E in E0. injection E0 as <- <-.
    destruct H as [(-> & Hall & Hk)|(j & p & l' & -> & Hj & Hk & _)].
    + split; [split; [by apply concat_all_empty|done]|].
      intros Hnd. rewrite Hk. split; [done|]. by intros p.
    + pose proof (concat_insert_pop (kmem s) j p l' Hj) as Hp.
      rewrite <- Hk in Hp. split; [done|]. intros Hnd.
      rewrite <- Hp in Hnd. apply NoDup_cons in Hnd as [Hnin Hnd].
      split; [done|]. by intros ? [= <-].
Qed.

(** X2: with a page on the caller's own list, [kalloc] takes the head of
    that list and nothing else: the only lock it takes is the one of that
    list, no other list is read or written, and the page is filled with the
    byte 5 before it is returned. *)
Theorem kalloc_own_list (c : nat) p l' s :
  (c < NCPU)%nat → tp s = Z.of_nat c → kmem s !! c = Some (p :: l') →
  kalloc s =
    (Ret (Some p),
     mkState (<[c := l']> (kmem s)) (tp s)
       (trace s ++ [EPushOff; EPopOff; EAcquire c; EStore c; ERelease c;
                    EMemset p 5])).
Proof.
  intros Hc Ht Hl. unfold Kalloc.kalloc. KallocSpec.run.
  rewrite Ht, index_in by done. unfold freelist. simpl. rewrite Hl. simpl.
  by rewrite <- !app_assoc.
Qed.

(** X3: with the caller's own list empty, [kalloc] goes through the lists
    from core 0 upwards, whichever core calls, and returns the head of the
    first list that has a page, leaving the other lists as they were. *)
Theorem kalloc_steals_lowest (j : nat) p l' s :
  wf s →
  kmem s !! Z.to_nat (tp s) = Some [] →
  kmem s !! j = Some (p :: l') →
  (∀ j', (j' < j)%nat → kmem s !! j' = Some []) →
  ∃ s', kalloc s = (Ret (Some p), s') ∧
        kmem s' = <[j := l']> (kmem s) ∧ tp s' = tp s.
Proof.
  intros Hwf Hown Hj Hlow.
  destruct (kalloc_cases NCPU s Hwf) as (r & s' & E & Ht & H).
  destruct H as [(-> & Hall & _)|(j0 & p0 & l0 & -> & Hj0 & Hk & Hwhere)].
  { by apply (Forall_lookup_1 _ _ _ _ Hall) in Hj. }
  assert (j0 = j) as ->.
  { destruct Hwhere as [Heq|[_ Hlow0]].
    - rewrite <- Heq, Nat2Z.id in Hown. congruence.
    - destruct (Nat.lt_trichotomy j0 j) as [Hlt|[->|Hlt]]; [|done|].
      + rewrite (Hlow j0 Hlt) in Hj0. done.
      + rewrite (Hlow0 j Hlt) in Hj. done. }
  rewrite Hj in Hj0. injection Hj0 as <- <-. eauto.
Qed.


(** *** What [kinit] builds *)

Section layout.
(** The kernel ends on a page boundary, every core gets [m] whole pages,
    and physical memory reaches at least to the end of the last
    partition. *)
Variable (m : nat).
Hypothesis (Hpg : 0 < PGSIZE).
Hypothesis (Hend : 0 ≤ end_ ∧ end_ mod PGSIZE = 0).
Hypothesis (Hmem : NMEM = PGSIZE * Z.of_nat m ∧ (0 < m)%nat).
Hypothesis (Htop : end_ + Z.of_nat NCPU * NMEM ≤ PHYSTOP ∧ PHYSTOP < 2 ^ 64).
Hypothesis (Hcpu : Z.of_nat NCPU < 2 ^ 31).

(** Page [k] of the partition of core [i]. *)
Definition page (i k : nat) : Z := end_ + NMEM * Z.of_nat i + PGSIZE * Z.of_nat k.

Lemma page_ok (i k : nat) :
  (i < NCPU)%nat → (k < m)%nat →
  kfree_rejects (page i k) = false ∧ owner (page i k) = Z.of_nat i.
Proof.
  intros Hi Hk. destruct Hend as [He0 He], Hmem as [HN Hm], Htop as [Ht1 Ht2].
  unfold page.
  assert (0 ≤ PGSIZE * Z.of_nat k < NMEM) as Hoff by (rewrite HN; nia).
  assert (0 < NMEM) as HNpos by nia.
  assert (NMEM * Z.of_nat i + NMEM ≤ Z.of_nat NCPU * NMEM) as Hpart by nia.
  assert (0 ≤ NMEM * Z.of_nat i) as Hbase by nia.
  assert ((end_ + NMEM * Z.of_nat i + PGSIZE * Z.of_nat k - end_) / NMEM
          = Z.of_nat i) as Hq.
  { replace (end_ + NMEM * Z.of_nat i + PGSIZE * Z.of_nat k - end_)
      with (Z.of_nat i * NMEM + PGSIZE * Z.of_nat k) by lia.
    rewrite Z.div_add_l by lia. rewrite Z.div_small by lia. lia. }
  split.
  - apply kfree_rejects_false. split; [|lia].
    replace (end_ + NMEM * Z.of_nat i + PGSIZE * Z.of_nat k)
      with (end_ + (Z.of_nat m * Z.of_nat i + Z.of_nat k) * PGSIZE)
      by (rewrite HN; lia).
    by rewrite Z.mod_add by lia.
  - rewrite owner_quot; [done|lia|lia|lia|rewrite Hq; lia].
Qed.

Lemma free_pages_run (i : nat) k : ∀ (j : nat) p l s,
  (i < NCPU)%nat → (j + k ≤ m)%nat → p = page i j →
  kmem s !! i = Some l →
  ∃ s', Kalloc.free_pages PGSIZE NMEM PHYSTOP end_ NCPU p k s = (Ret tt, s') ∧
        kmem s' = <[i := reverse (page i <$> seq j k) ++ l]> (kmem s) ∧
        tp s' = tp s.
Proof.
  induction k as [|k IH]; intros j p l s Hi Hjk -> Hl; simpl.
  - eexists. split; [done|]. split; [|done]. by rewrite list_insert_id.
  - destruct (page_ok i j) as [Hv Ho]; [done|lia|].
    unfold bind. rewrite (kfree_run _ _ _ _ _ _ i l s Hv Ho Hi Hl).
    set (s1 := mkState _ _ _).
    destruct (IH (S j) (page i j + PGSIZE) (page i j :: l) s1)
      as (s' & E & Hk & Ht); [done|lia|unfold page; lia| |].
    { simpl. apply list_lookup_insert_eq. by eapply lookup_lt_Some. }
    exists s'. split; [done|]. split; [|done].
    rewrite Hk. simpl. rewrite list_insert_insert_eq, reverse_cons.
    by rewrite <- app_assoc.
Qed.

Lemma PGROUNDUP_aligned a :
  a mod PGSIZE = 0 → Kalloc.PGROUNDUP PGSIZE a = a.
Proof.
  intros Ha. unfold Kalloc.PGROUNDUP.
  apply Z.div_exact in Ha; [|lia]. rewrite Ha at 1.
  replace (PGSIZE * (a / PGSIZE) + PGSIZE - 1)
    with ((a / PGSIZE) * PGSIZE + (PGSIZE - 1)) by lia.
  rewrite Z.div_add_l by lia. rewrite (Z.div_small (PGSIZE - 1)) by lia. lia.
Qed.

Lemma freerange_run (i : nat) s :
  (i < NCPU)%nat → kmem s !! i = Some [] →
  ∃ s', Kalloc.freerange PGSIZE NMEM PHYSTOP end_ NCPU
          (end_ + NMEM * Z.of_nat i) (end_ + NMEM * Z.of_nat i + NMEM) s
          = (Ret tt, s') ∧
        kmem s' = <[i := reverse (page i <$> seq 0 m)]> (kmem s) ∧
        tp s' = tp s.
Proof.
  intros Hi Hl. destruct Hend as [He0 He], Hmem as [HN Hm].
  unfold Kalloc.freerange. rewrite PGROUNDUP_aligned.
  2:{ replace (end_ + NMEM * Z.of_nat i)
        with (end_ + (Z.of_nat m * Z.of_nat i) * PGSIZE) by (rewrite HN; lia).
      by rewrite Z.mod_add by lia. }
  replace (Z.to_nat ((end_ + NMEM * Z.of_nat i + NMEM
                      - (end_ + NMEM * Z.of_nat i)) / PGSIZE)) with m.
  2:{ replace (end_ + NMEM * Z.of_nat i + NMEM - (end_ + NMEM * Z.of_nat i))
        with (Z.of_nat m * PGSIZE) by (rewrite HN; lia).
      rewrite Z.div_mul by lia. lia. }
  destruct (free_pages_run i m 0%nat (end_ + NMEM * Z.of_nat i) [] s)
    as (s' & E & Hk & Ht); [done|lia|unfold page; lia|done|].
  exists s'. split; [done|]. by rewrite app_nil_r in Hk.
Qed.

Lemma kinit_from_run k : ∀ (i : nat) s,
  (i + k = NCPU)%nat →
  kmem s = ((λ i, reverse (page i <$> seq 0 m)) <$> seq 0 i) ++ replicate k [] →
  ∃ s', Kalloc.kinit_from PGSIZE NMEM PHYSTOP end_ NCPU i k s = (Ret tt, s') ∧
        kmem s' = (λ i, reverse (page i <$> seq 0 m)) <$> seq 0 NCPU ∧
        tp s' = tp s.
Proof.
  induction k as [|k IH]; intros i s Hik Hs; simpl.
  - eexists. split; [done|]. split; [|done].
    rewrite Hs, app_nil_r. by replace i with NCPU by lia.
  - assert (kmem s !! i = Some []) as Hl.
    { rewrite Hs, lookup_app_r by by rewrite length_fmap, length_seq.
      by rewrite length_fmap, length_seq, Nat.sub_diag. }
    destruct (freerange_run i s) as (s1 & E & Hk & Ht); [lia|done|].
    unfold bind. rewrite E.
    destruct (IH (S i) s1) as (s' & E' & Hk' & Ht'); [lia| |].
    { rewrite Hk, Hs, seq_S, fmap_app.
      rewrite insert_app_r_alt by by rewrite length_fmap, length_seq.
      rewrite length_fmap, length_seq, Nat.sub_diag. simpl.
      by rewrite <- app_assoc. }
    exists s'. split; [done|]. split; [done|congruence].
Qed.

(** X5: [kinit] gives every core the pages of its own partition.  With the
    kernel ending on a page boundary, [m] whole pages per core and physical
    memory reaching to the end of the last partition, [kinit] goes through,
    and the free list of core [i] holds the [m] pages from
    [end + NMEM * i] upwards, the highest address on top, so that the
    core's first [kalloc] returns its highest page. *)
Theorem kinit_partitions c :
  ∃ s, kinit (boot NCPU c) = (Ret tt, s) ∧ tp s = c ∧
       kmem s = (λ i, reverse (page i <$> seq 0 m)) <$> seq 0 NCPU.
Proof.
  destruct (kinit_from_run NCPU 0%nat (boot NCPU c)) as (s & E & Hk & Ht);
    [done|done|].
  exists s. split; [done|]. split; done.
Qed.
End layout.

(** *** Locks and free lists *)

Lemma steal_guarded m : ∀ lo s o s',
  (lo + m ≤ length (kmem s))%nat →
  for_range lo m steal_body s = (o, s') →
  ∃ tr, trace s' = trace s ++ tr ∧ guarded None tr = Some None.
Proof.
  induction m as [|m IH]; intros lo s o s' Hlen; simpl.
  - intros [= <- <-]. exists []. by rewrite app_nil_r.
  - destruct (lookup_lt_is_Some_2 (kmem s) lo) as [l Hl]; [lia|].
    unfold bind at 1, steal_body, freelist. KallocSpec.run. rewrite Hl.
    destruct l as [|p l']; simpl.
    + intros E. apply IH in E as (tr & Htr & Hg); [|simpl; lia].
      exists ([EAcquire lo; ERelease lo] ++ tr). simpl in Htr.
      split; [by rewrite Htr, <- !app_assoc|].
      by rewrite (guarded_app _ None None _ (guarded_look lo)).
    + intros [= <- <-]. exists [EAcquire lo; EStore lo; ERelease lo].
      split; [by rewrite <- !app_assoc|apply guarded_pop].
Qed.

(** X16: the free lists are written under their locks.  Along every run of
    [kalloc] and of [kfree] on an allocator of the declared size, a [kmem]
    lock is acquired only when none is held, [kmem[i].freelist] is written
    only while the lock of [kmem[i]] is held, and no lock is held when the
    function ends. *)
Theorem kmem_locks_guard_lists s :
  wf s →
  (∀ o s', kalloc s = (o, s') →
     ∃ tr, trace s' = trace s ++ tr ∧ guarded None tr = Some None) ∧
  (∀ pa o s', kfree pa s = (o, s') →
     ∃ tr, trace s' = trace s ++ tr ∧ guarded None tr = Some None).
Proof.
  intros [Hlen Htp]. split.
  - intros o s'. unfold Kalloc.kalloc. KallocSpec.run.
    rewrite index_ok by done. simpl.
    destruct (lookup_lt_is_Some_2 (kmem s) (Z.to_nat (tp s))) as [l Hl]; [lia|].
    unfold freelist. simpl. rewrite Hl. set (c := Z.to_nat (tp s)).
    destruct l as [|p l']; simpl.
    + destruct (for_range 0 NCPU steal_body _) as [o1 s1] eqn:Es.
      apply steal_guarded in Es as (tr & Htr & Hg); [|simpl; lia].
      simpl in Htr.
      assert (guarded None ([EPushOff; EPopOff; EAcquire c; ERelease c] ++ tr)
              = Some None) as Hg1.
      { simpl. by rewrite decide_True. }
      destruct o1 as [[q|]|?| |?]; intros [= <- <-].
      * exists ([EPushOff; EPopOff; EAcquire c; ERelease c] ++ tr ++ [EMemset q 5]).
        simpl. rewrite Htr. split; [by rewrite <- !app_assoc|].
        rewrite decide_True by done.
        by rewrite (guarded_app tr None None _ Hg).
      * exists ([EPushOff; EPopOff; EAcquire c; ERelease c] ++ tr).
        rewrite Htr. split; [by rewrite <- !app_assoc|done].
      * exists ([EPushOff; EPopOff; EAcquire c; ERelease c] ++ tr).
        rewrite Htr. split; [by rewrite <- !app_assoc|done].
      * exists ([EPushOff; EPopOff; EAcquire c; ERelease c] ++ tr).
        rewrite Htr. split; [by rewrite <- !app_assoc|done].
      * exists ([EPushOff; EPopOff; EAcquire c; ERelease c] ++ tr).
        rewrite Htr. split; [by rewrite <- !app_assoc|done].
    + intros [= <- <-].
      exists [EPushOff; EPopOff; EAcquire c; EStore c; ERelease c; EMemset p 5].
      split; [by rewrite <- !app_assoc|]. simpl. by rewrite !decide_True.
  - intros pa o s'. unfold Kalloc.kfree.
    destruct (kfree_rejects pa).
    { intros [= <- <-]. exists []. by rewrite app_nil_r. }
    KallocSpec.run. unfold Kalloc.index.
    case_bool_decide as Hi.
    2:{ intros [= <- <-]. by exists [EMemset pa 1]. }
    destruct (lookup_lt_is_Some_2 (kmem s) (Z.to_nat (owner pa))) as [l Hl];
      [lia|].
    unfold freelist. simpl. rewrite Hl. simpl. intros [= <- <-].
    set (i := Z.to_nat (owner pa)).
    exists [EMemset pa 1; EAcquire i; EStore i; ERelease i].
    split; [by rewrite <- !app_assoc|]. simpl. by rewrite !decide_True.
Qed.

(** X17: a free list is a stack.  Two different pages of one core, neither
    of them on a free list, freed one after the other come back from that
    core's [kalloc] in the opposite order, and the free lists are then as
    they were before the two [kfree]; the second page is on no list when it
    is freed. *)
Theorem kalloc_returns_last_freed a b (i : nat) l s :
  kfree_rejects a = false → kfree_rejects b = false →
  owner a = Z.of_nat i → owner b = Z.of_nat i → (i < NCPU)%nat →
  kmem s !! i = Some l → tp s = Z.of_nat i →
  a ≠ b → a ∉ concat (kmem s) → b ∉ concat (kmem s) →
  ∃ s1 s2 s3 s4,
    kfree a s = (Ret tt, s1) ∧ (b ∉ concat (kmem s1)) ∧
    kfree b s1 = (Ret tt, s2) ∧
    kalloc s2 = (Ret (Some b), s3) ∧ kalloc s3 = (Ret (Some a), s4) ∧
    kmem s2 !! i = Some (b :: a :: l) ∧ kmem s4 = kmem s.
Proof.
  intros Ha Hb Hoa Hob Hi Hl Ht Hab Hna Hnb.
  pose proof (kfree_run _ _ _ _ _ a i l s Ha Hoa Hi Hl) as E1.
  set (s1 := mkState _ _ _) in E1.
  assert (kmem s1 !! i = Some (a :: l)) as Hl1.
  { simpl. apply list_lookup_insert_eq. by eapply lookup_lt_Some. }
  pose proof (kfree_run _ _ _ _ _ b i (a :: l) s1 Hb Hob Hi Hl1) as E2.
  set (s2 := mkState _ _ _) in E2.
  assert (kmem s2 !! i = Some (b :: a :: l)) as Hl2.
  { simpl. apply list_lookup_insert_eq. rewrite length_insert.
    by eapply lookup_lt_Some. }
  destruct (kalloc_local NCPU i b (a :: l) s2 Hi Ht Hl2) as (s3 & E3 & Hk3 & Ht3).
  assert (kmem s3 !! i = Some (a :: l)) as Hl3.
  { rewrite Hk3. apply list_lookup_insert_eq. by eapply lookup_lt_Some. }
  destruct (kalloc_local NCPU i a l s3 Hi (eq_trans Ht3 Ht) Hl3)
    as (s4 & E4 & Hk4 & _).
  exists s1, s2, s3, s4. split; [done|]. split.
  { simpl. rewrite (concat_insert_push (kmem s) i a l Hl).
    by intros [?|?]%elem_of_cons. }
  split; [done|]. split; [done|].
  split; [done|]. split; [done|]. rewrite Hk4, Hk3. simpl.
  rewrite !list_insert_insert_eq. by apply list_insert_id.
Qed.
End more.

Lemma two_cores_wf : KallocSpec.wf 2 two_cores.
Proof. split; [reflexivity | change (tp two_cores) with 0; lia]. Qed.

(** Core 0 has used up its pages; core 1 has one left. *)
Definition core0_empty : state := mkState [[]; [4112384]] 0 [].

Lemma free_pages_conserved_witness :
  (∀ pa s', pa ∉ concat (kmem two_cores) →
     Kalloc.kfree 4096 16384 4128768 4096000 2 pa two_cores = (Ret tt, s') →
     concat (kmem s') ≡ₚ pa :: concat (kmem two_cores) ∧
     (NoDup (concat (kmem two_cores)) → NoDup (concat (kmem s')))) ∧
  (∀ r s', Kalloc.kalloc 2 two_cores = (Ret r, s') →
     match r with
     | Some p => p :: concat (kmem s') ≡ₚ concat (kmem two_cores)
     | None => concat (kmem two_cores) = [] ∧ kmem s' = kmem two_cores
     end ∧
     (NoDup (concat (kmem two_cores)) →
      NoDup (concat (kmem s')) ∧ ∀ p, r = Some p → p ∉ concat (kmem s'))).
Proof.
  apply (free_pages_conserved 4096 16384 4128768 4096000 2 two_cores).
  exact two_cores_wf.
Defined.

Lemma kalloc_own_list_witness :
  Kalloc.kalloc 2 two_cores =
    (Ret (Some 4108288),
     mkState (<[0%nat := [4104192; 4100096; 4096000]]> (kmem two_cores))
       (tp two_cores)
       (trace two_cores ++
        [EPushOff; EPopOff; EAcquire 0; EStore 0; ERelease 0;
         EMemset 4108288 5])).
Proof.
  apply (kalloc_own_list 2 0%nat 4108288 [4104192; 4100096; 4096000]
           two_cores).
  - lia.
  - by vm_compute.
  - by vm_compute.
Defined.

Lemma kalloc_steals_lowest_witness :
  ∃ s', Kalloc.kalloc 2 core0_empty = (Ret (Some 4112384), s') ∧
        kmem s' = <[1%nat := []]> (kmem core0_empty) ∧
        tp s' = tp core0_empty.
Proof.
  apply (kalloc_steals_lowest 2 1%nat 4112384 [] core0_empty).
  - split; [reflexivity | simpl; lia].
  - reflexivity.
  - reflexivity.
  - intros j' Hj'. by replace j' with 0%nat by lia.
Defined.


Lemma kmem_locks_guard_lists_witness :
  (∀ o s', Kalloc.kalloc 2 core0_empty = (o, s') →
     ∃ tr, trace s' = trace core0_empty ++ tr ∧ guarded None tr = Some None) ∧
  (∀ pa o s', Kalloc.kfree 4096 16384 4128768 4096000 2 pa core0_empty
              = (o, s') →
     ∃ tr, trace s' = trace core0_empty ++ tr ∧ guarded None tr = Some None).
Proof.
  apply (kmem_locks_guard_lists 4096 16384 4128768 4096000 2 core0_empty).
  split; [reflexivity | simpl; lia].
Defined.

Lemma kalloc_returns_last_freed_witness :
  ∃ s1 s2 s3 s4,
    Kalloc.kfree 4096 16384 4128768 4096000 2 4096000 (boot 2 0)
      = (Ret tt, s1) ∧
    (4100096 ∉ concat (kmem s1)) ∧
    Kalloc.kfree 4096 16384 4128768 4096000 2 4100096 s1 = (Ret tt, s2) ∧
    Kalloc.kalloc 2 s2 = (Ret (Some 4100096), s3) ∧
    Kalloc.kalloc 2 s3 = (Ret (Some 4096000), s4) ∧
    kmem s2 !! 0%nat = Some [4100096; 4096000] ∧ kmem s4 = kmem (boot 2 0).
Proof.
  apply (kalloc_returns_last_freed 4096 16384 4128768 4096000 2
           4096000 4100096 0 [] (boot 2 0));
    first [reflexivity | lia | apply not_elem_of_nil].
Defined.

Lemma kinit_partitions_witness :
  ∃ s, Kalloc.kinit 4096 16384 4128768 4096000 2 (boot 2 0) = (Ret tt, s) ∧
       tp s = 0 ∧
       kmem s = (λ i, reverse (page 4096 16384 4096000 i <$> seq 0 4))
                  <$> seq 0 2.
Proof.
  apply (kinit_partitions 4096 16384 4128768 4096000 2 4).
  - lia.
  - split; [lia | reflexivity].
  - split; [reflexivity | lia].
  - lia.
  - lia.
Defined.
End KallocMore.

(** ** More on the buffer cache: [binit], the other paths of [bget], and
    how the operations follow one another *)

Module BioMore.
Import Bio BioSpec.
Local Open Scope Z_scope.

(** A buffer with everything but its block erased. *)
Definition key_only (e : buf) : buf := mkBuf false (dev e) (blockno e) None 0 0 [].

Lemma keys_lookup (l1 l2 : list buf) j :
  key_only <$> l1 = key_only <$> l2 →
  key_only <$> l1 !! j = key_only <$> l2 !! j.
Proof. intros H. by rewrite <- !list_lookup_fmap, H. Qed.

Lemma keys_insert (l : list buf) b e e' :
  l !! b = Some e → dev e' = dev e → blockno e' = blockno e →
  key_only <$> <[b := e']> l = key_only <$> l.
Proof.
  intros Hl Hd Hn. rewrite list_fmap_insert. apply list_insert_id.
  rewrite list_lookup_fmap, Hl. simpl. unfold key_only. by rewrite Hd, Hn.
Qed.

Lemma unpin_pin r : 0 ≤ r < 2 ^ 32 → wrap32 (wrap32 (r + 1) - 1) = r.
Proof.
  intros H. unfold wrap32. rewrite Zminus_mod_idemp_l.
  replace (r + 1 - 1) with r by lia. by apply Z.mod_small.
Qed.

Section more.
Variables (NBUF NBUCKET : nat).
Variables (d n : Z).

Abbreviation bget := (Bio.bget NBUF NBUCKET d n).
Abbreviation bread := (Bio.bread NBUF NBUCKET d n).
Abbreviation wf := (BioSpec.wf NBUF NBUCKET).
Abbreviation classify := (BioSpec.classify d n).
Abbreviation after := (BioSpec.after NBUCKET d n).
Abbreviation cached := (BioSpec.cached d n).
Abbreviation bucket_hits := (BioSpec.bucket_hits d n).

(** *** Which path is taken *)

Lemma classify_bucket_intro s k b :
  bucket s !! k = Some b → bucket_hits s b = true →
  (∀ j y, bucket s !! j = Some y → (j < k)%nat → bucket_hits s y = false) →
  classify s = PBucket k b.
Proof.
  intros Hk Hb Hlow. unfold BioSpec.classify.
  assert (list_find (λ b, bucket_hits s b = true) (bucket s) = Some (k, b))
    as ->; [|done].
  apply list_find_Some. split; [done|]. split; [done|].
  intros j y Hy Hj. by rewrite (Hlow j y Hy Hj).
Qed.

Lemma classify_none s :
  (∀ j e, bufs s !! j = Some e → same_block d n e = false) →
  (∀ j e, bufs s !! j = Some e → refcnt e ≠ 0) →
  classify s = PNone.
Proof.
  intros Hno Hbusy. pose proof (classify_cases d n s) as H.
  destruct (classify s) as [k b|i|i|]; [| | |done].
  - destruct H as (_ & (e & He & Hs) & _). rewrite (Hno b e) in Hs; done.
  - destruct H as (_ & (e & He & Hs) & _). rewrite (Hno i e) in Hs; done.
  - destruct H as (_ & _ & (e & He & Hz) & _). by destruct (Hbusy i e).
Qed.

Lemma cached_hit s :
  cached s →
  (∃ k b, classify s = PBucket k b) ∨ (∃ i, classify s = PScan i).
Proof.
  intros (i & e & Hi & He). pose proof (classify_cases d n s) as H.
  destruct (classify s) as [k b|i'|i'|]; [by eauto|by eauto|..].
  - destruct H as (_ & Hall & _).
    apply (Forall_lookup_1 _ _ _ _ Hall) in Hi. congruence.
  - destruct H as (_ & Hall & _).
    apply (Forall_lookup_1 _ _ _ _ Hall) in Hi. congruence.
Qed.

Lemma recycle_not_cached s i : classify s = PRecycle i → ¬ cached s.
Proof.
  intros Hc Hca. destruct (cached_hit s Hca) as [(? & ? & ?)|(? & ?)];
    congruence.
Qed.

(** *** The buffer a path rewrites *)

Definition rewrite_of (p : path) (t : Z) : buf → buf :=
  match p with
  | PRecycle _ => recycle d n t
  | _ => touch t
  end.

Lemma after_lookup_ne p s b j :
  target p = Some b → j ≠ b → bufs (after p s) !! j = bufs s !! j.
Proof.
  intros Ht Hj. destruct p; simpl in Ht; [| | |done];
    injection Ht as ->; simpl; by rewrite list_lookup_alter_ne.
Qed.

Lemma after_lookup_eq p s b e :
  target p = Some b → bufs s !! b = Some e →
  bufs (after p s) !! b = Some (rewrite_of p (ticks s) e).
Proof.
  intros Ht He. destruct p; simpl in Ht; [| | |done];
    injection Ht as ->; simpl; by rewrite list_lookup_alter_eq, He.
Qed.

Lemma target_lookup s b :
  target (classify s) = Some b → ∃ e, bufs s !! b = Some e.
Proof.
  intros Ht. pose proof (classify_cases d n s) as H.
  destruct (classify s) as [k b'|i|i|]; simpl in Ht; [| | |done];
    injection Ht as ->.
  - destruct H as (_ & (e & He & _) & _). eauto.
  - destruct H as (_ & (e & He & _) & _). eauto.
  - destruct H as (_ & _ & (e & He & _) & _). eauto.
Qed.

(** What [bget] does to each buffer: the one it ends at gets one more
    reference and the time (a hit), or a new identity (no hit), and perhaps
    the caller as holder of its sleep-lock; every other one is left as it
    is. *)
Lemma bget_buffer s o s' j e :
  wf s → bget s = (o, s') → bufs s !! j = Some e →
  (o ≠ Ret j ∧ o ≠ Blocked j ∧ bufs s' !! j = Some e) ∨
  ((o = Ret j ∨ o = Blocked j) ∧
   ∃ l, (o = Blocked j → l = lock e) ∧
        bufs s' !! j = Some (with_lock l (rewrite_of (classify s) (ticks s) e)) ∧
        ((cached s ∧ same_block d n e = true ∧
          ∀ i, classify s ≠ PRecycle i) ∨
         (¬ cached s ∧ refcnt e = 0 ∧ classify s = PRecycle j))).
Proof.
  intros Hwf E Hj.
  destruct (bget_inv NBUF NBUCKET d n s o s' Hwf E)
    as [(Hc & -> & ->)|(b & eX & Ht & HeX & Hcase)].
  { left. split; [done|]. split; [done|]. done. }
  destruct (decide (j = b)) as [->|Hne].
  - right. rewrite (after_lookup_eq _ s b e Ht Hj) in HeX.
    injection HeX as <-.
    assert ((cached s ∧ same_block d n e = true ∧
             ∀ i, classify s ≠ PRecycle i) ∨
            (¬ cached s ∧ refcnt e = 0 ∧ classify s = PRecycle b)) as Hkind.
    { pose proof (classify_cases d n s) as H.
      destruct (classify s) as [k b'|i|i|] eqn:Hc; simpl in Ht; [| | |done];
        injection Ht as ->.
      - destruct H as (_ & (e0 & He0 & Hs) & _).
        rewrite Hj in He0. injection He0 as <-.
        left. split; [by exists b, e|done].
      - destruct H as (_ & (e0 & He0 & Hs) & _).
        rewrite Hj in He0. injection He0 as <-.
        left. split; [by exists b, e|done].
      - destruct H as (_ & _ & (e0 & He0 & Hz) & _).
        rewrite Hj in He0. injection He0 as <-.
        right. split; [by eapply recycle_not_cached|done]. }
    destruct Hcase as [(Hl & -> & ->)|(Hl & -> & ->)].
    + split; [by left|]. exists (Some (pid (after (classify s) s))).
      split; [by intros [=]|]. split; [|done].
      simpl. apply list_lookup_insert_eq. rewrite bufs_after_length.
      by eapply lookup_lt_Some.
    + split; [by right|]. exists (lock e). split; [done|].
      split; [|done]. rewrite (after_lookup_eq _ s b e Ht Hj). f_equal.
      by destruct (classify s), e.
  - left.
    assert (bufs s' !! j = Some e) as Hs'.
    { destruct Hcase as [(_ & _ & ->)|(_ & _ & ->)].
      + simpl. rewrite list_lookup_insert_ne by done.
        by rewrite (after_lookup_ne _ s b j Ht Hne).
      + by rewrite (after_lookup_ne _ s b j Ht Hne). }
    destruct Hcase as [(_ & -> & _)|(_ & -> & _)];
      (split; [congruence|split; [congruence|done]]).
Qed.

Lemma after_disk p s : disk (after p s) = disk s.
Proof. by destruct p. Qed.

Lemma bget_disk s o s' : wf s → bget s = (o, s') → disk s' = disk s.
Proof.
  intros Hwf E.
  destruct (bget_inv NBUF NBUCKET d n s o s' Hwf E)
    as [(_ & _ & ->)|(b & eX & _ & _ & [(_ & _ & ->)|(_ & _ & ->)])];
    simpl; by rewrite ?after_disk.
Qed.

(** X6: from zero-initialised memory, with at least one bucket and no more
    buckets than buffers, [binit] goes through and leaves bucket [k]
    pointing to buffer [k], every buffer unused, unlocked and with time 0,
    and the arrays with their declared sizes. *)
Theorem binit_from_zeroed t p dk :
  (0 < NBUCKET ≤ NBUF)%nat →
  ∃ s, Bio.binit NBUF NBUCKET (boot NBUF NBUCKET t p dk) = (Ret tt, s) ∧
       wf s ∧
       (∀ k, (k < NBUCKET)%nat → bucket s !! k = Some k) ∧
       bufs s = replicate NBUF zero_buf ∧
       (∀ i e, bufs s !! i = Some e →
               refcnt e = 0 ∧ time e = 0 ∧ lock e = None).
Proof.
  intros Hn.
  destruct (binit_boot NBUF NBUCKET t p dk Hn) as (s & E & Hwf & _ & _ & Hk & Hb).
  exists s. split; [done|]. split; [done|]. split; [done|]. split; [done|].
  intros i e. rewrite Hb. by intros [-> _]%lookup_replicate.
Qed.

(** X7: when no buffer holds the block and every buffer is in use, [bget]
    panics with "bget: no buffers"; up to the panic it has gone through the
    bucket locks and taken [bcache.lock], which it still holds, and it has
    changed no buffer and no bucket. *)
Theorem bget_no_buffers_panics s :
  wf s →
  (∀ j e, bufs s !! j = Some e → same_block d n e = false) →
  (∀ j e, bufs s !! j = Some e → refcnt e ≠ 0) →
  bget s =
    (Panic "bget: no buffers",
     put_trace (trace s ++ lock_pairs 0 NBUCKET ++ [EAcquire LBcache]) s).
Proof.
  intros Hwf Hno Hbusy.
  pose proof (bget_outcome NBUF NBUCKET d n s Hwf) as H.
  by rewrite (classify_none s Hno Hbusy) in H.
Qed.

(** X8: when bucket [k] is the first bucket that points to a buffer holding
    the block, [bget] takes one more reference on that buffer, stamps it
    with [ticks] and asks for its sleep-lock, having acquired and released
    the locks of buckets 0 to [k] and no other spinlock; the buffer keeps
    its payload and its valid flag, and no bucket is written. *)
Theorem bget_hits_in_bucket s k b e :
  wf s →
  bucket s !! k = Some b → bufs s !! b = Some e → same_block d n e = true →
  (∀ j y, bucket s !! j = Some y → (j < k)%nat → bucket_hits s y = false) →
  bget s =
    match lock e with
    | None =>
      (Ret b,
       put_trace (trace s ++ lock_pairs 0 (S k) ++ [EAcquireSleep b])
         (put_bufs (<[b := mkBuf (valid e) (dev e) (blockno e)
                            (Some (pid s)) (wrap32 (refcnt e + 1)) (ticks s)
                            (data e)]> (bufs s)) s))
    | Some _ =>
      (Blocked b,
       put_trace (trace s ++ lock_pairs 0 (S k))
         (put_bufs (<[b := mkBuf (valid e) (dev e) (blockno e) (lock e)
                            (wrap32 (refcnt e + 1)) (ticks s) (data e)]>
                      (bufs s)) s))
    end.
Proof.
  intros Hwf Hk Hb He Hlow.
  assert (classify s = PBucket k b) as Hc.
  { apply classify_bucket_intro; [done| |done].
    unfold BioSpec.bucket_hits. by rewrite Hb. }
  pose proof (bget_outcome NBUF NBUCKET d n s Hwf) as H.
  rewrite Hc in H. simpl in H. destruct H as (e1 & He1 & ->).
  rewrite list_lookup_alter_eq, Hb in He1. injection He1 as <-.
  rewrite <- (insert_alter _ _ _ e) by done.
  simpl. destruct (lock e) eqn:Hl; unfold locked; norm;
    unfold with_lock, with_time, with_refcnt; simpl; by rewrite ?Hl.
Qed.

(** X9: on a cache of the declared shape, [bget] and [bread] never index
    [bcache.buf] or [bcache.bucket] out of bounds, and they leave the cache
    in that shape: every bucket still points into [bcache.buf]. *)
Theorem bget_stays_in_bounds s :
  wf s →
  (∀ o s', bget s = (o, s') → o ≠ Fault ∧ wf s') ∧
  (∀ o s', bread s = (o, s') → o ≠ Fault ∧ wf s').
Proof.
  intros Hwf. split.
  - intros o s' E. split; [|by eapply wf_bget].
    destruct (bget_inv NBUF NBUCKET d n s o s' Hwf E)
      as [(_ & -> & _)|(b & eX & _ & _ & [(_ & -> & _)|(_ & -> & _)])]; done.
  - intros o s' E. split; [|by eapply wf_bread].
    rewrite bread_run in E. destruct (bget s) as [o1 s1] eqn:Eg.
    destruct o1 as [b|msg| |c]; try (by injection E as <- <-).
    + destruct (bget_returns NBUF NBUCKET d n s b s1 Hwf Eg) as (e & He & _).
      rewrite He in E. by injection E as <- <-.
    + by destruct (bget_inv NBUF NBUCKET d n s _ _ Hwf Eg)
        as [(_ & ? & _)|(b & eX & _ & _ & [(_ & ? & _)|(_ & ? & _)])].
Qed.

(** X10: [bget] rewrites at most the buffer it ends at.  The disk and every
    other buffer are as before, and a buffer that is in use ([refcnt] not
    0) keeps its block, its payload and its valid flag, also when it is the
    one [bget] ends at: only an unused buffer is ever given a new
    identity. *)
Theorem bget_keeps_other_buffers s o s' :
  wf s → bget s = (o, s') →
  disk s' = disk s ∧
  ∀ j e, bufs s !! j = Some e →
    (o ≠ Ret j → o ≠ Blocked j → bufs s' !! j = Some e) ∧
    (refcnt e ≠ 0 →
     ∃ e', bufs s' !! j = Some e' ∧ dev e' = dev e ∧
           blockno e' = blockno e ∧ valid e' = valid e ∧ data e' = data e).
Proof.
  intros Hwf E. split; [by eapply bget_disk|]. intros j e Hj.
  destruct (bget_buffer s o s' j e Hwf E Hj)
    as [(Hr & Hb & He')|(Ho & l & _ & He' & Hkind)].
  - split; [done|]. intros _. by exists e.
  - split; [intros Hr Hb; by destruct Ho|]. intros Hz.
    destruct Hkind as [(_ & _ & Hnr)|(_ & ? & _)]; [|done].
    eexists. split; [done|].
    destruct (classify s) as [k b|i|i|]; [done|done| |done].
    by destruct (Hnr i).
Qed.

(** X11: [bget] puts a block into at most one more buffer.  When some
    buffer holds the block already, every buffer keeps the block it has;
    when none does and [bget] does not panic, the buffer it ends at is
    afterwards the only one that holds the block. *)
Theorem bget_one_buffer_per_block s o s' :
  wf s → bget s = (o, s') →
  (cached s → ∀ j e, bufs s !! j = Some e →
     ∃ e', bufs s' !! j = Some e' ∧ dev e' = dev e ∧ blockno e' = blockno e) ∧
  (¬ cached s → ∀ i, o = Ret i ∨ o = Blocked i →
     ∀ j e', bufs s' !! j = Some e' → (same_block d n e' = true ↔ j = i)).
Proof.
  intros Hwf E. split.
  - intros Hca j e Hj.
    destruct (bget_buffer s o s' j e Hwf E Hj)
      as [(_ & _ & He')|(_ & l & _ & He' & Hkind)]; [by exists e|].
    destruct Hkind as [(_ & _ & Hnr)|(Hnc & _)]; [|done].
    eexists. split; [done|].
    destruct (classify s) as [k b|i|i|]; [done|done| |done].
    by destruct (Hnr i).
  - intros Hnc i Ho j e' He'.
    assert (∃ e, bufs s !! j = Some e) as [e Hj].
    { apply lookup_lt_is_Some_2.
      pose proof (wf_bget NBUF NBUCKET d n s o s' Hwf E) as [Hl' _].
      pose proof Hwf as [Hl _]. rewrite Hl, <- Hl'.
      by eapply lookup_lt_Some. }
    assert (same_block d n e = false) as Hne.
    { destruct (same_block d n e) eqn:Hs; [|done].
      destruct Hnc. by exists j, e. }
    destruct (bget_buffer s o s' j e Hwf E Hj)
      as [(Hr & Hb & He)|(Ho' & l & _ & He & Hkind)].
    + rewrite He in He'. injection He' as <-. rewrite Hne.
      split; [done|]. intros ->. by destruct Ho.
    + rewrite He in He'. injection He' as <-.
      destruct Hkind as [(? & _)|(_ & _ & ->)]; [done|]. simpl.
      unfold same_block. simpl. rewrite !Z.eqb_refl. split; [|done].
      intros _. destruct Ho as [->| ->], Ho' as [[=]|[=]]; done.
Qed.

(** X12: [bpin] followed by [bunpin] on the same buffer leaves the cache as
    it was (up to the two passages through [bcache.lock]): the reference
    [bpin] takes is the one [bunpin] gives back, for every count an [uint]
    can hold, and neither touches the sleep-lock, the time or the disk. *)
Theorem bpin_bunpin_round_trip b e s :
  bufs s !! b = Some e → 0 ≤ refcnt e < 2 ^ 32 →
  ∃ s1 s2,
    bpin b s = (Ret tt, s1) ∧ bunpin b s1 = (Ret tt, s2) ∧
    bufs s1 = <[b := with_refcnt (wrap32 (refcnt e + 1)) e]> (bufs s) ∧
    bufs s2 = bufs s ∧ bucket s2 = bucket s ∧ disk s2 = disk s ∧
    trace s2 = trace s ++ [EAcquire LBcache; ERelease LBcache;
                           EAcquire LBcache; ERelease LBcache].
Proof.
  intros Hb Hr. rewrite (bpin_run b e) by done.
  do 2 eexists. split; [done|].
  erewrite (bunpin_run b)
    by (simpl; apply list_lookup_insert_eq; by eapply lookup_lt_Some).
  split; [done|]. split; [done|]. simpl.
  rewrite list_insert_insert_eq, unpin_pin, <- app_assoc by done.
  split; [|done]. apply list_insert_id. by destruct e.
Qed.

(** *** A block stays where it was found *)

Lemma bucket_hits_keys s s' y :
  key_only <$> bufs s' = key_only <$> bufs s →
  bucket_hits s' y = bucket_hits s y.
Proof.
  intros Hk. unfold BioSpec.bucket_hits.
  pose proof (keys_lookup _ _ y Hk) as E.
  destruct (bufs s' !! y), (bufs s !! y); simpl in E; try done.
  injection E as Hd Hn. simpl. unfold same_block. by rewrite Hd, Hn.
Qed.

(** With the block in some buffer, the path depends on the buckets and on
    the blocks the buffers hold, and on nothing else. *)
Lemma classify_keys s s' :
  bucket s' = bucket s → key_only <$> bufs s' = key_only <$> bufs s →
  cached s → classify s' = classify s.
Proof.
  intros Hk Hb (i & e & Hi & He). unfold BioSpec.classify. rewrite Hk.
  rewrite (list_find_ext (λ b, bucket_hits s' b = true)
             (λ b, bucket_hits s b = true))
    by (intros b; by rewrite (bucket_hits_keys s s' b Hb)).
  destruct (list_find _ (bucket s)) as [[k b]|]; [done|].
  pose proof (list_find_index_erase (λ e, same_block d n e = true)
                key_only (bufs s') (bufs s) ltac:(done) Hb) as E1.
  destruct (list_find _ (bufs s')) as [[i1 e1]|],
           (list_find _ (bufs s)) as [[i0 e0]|] eqn:Hf;
    try (by discriminate E1); [by injection E1 as ->|].
  apply list_find_None in Hf.
  by apply (Forall_lookup_1 _ _ _ _ Hf) in Hi.
Qed.

(** The buffer [bget] ends at is the one a [bget] for the same block ends
    at from then on. *)
Lemma target_after s b :
  wf s → target (classify s) = Some b →
  target (classify (after (classify s) s)) = Some b.
Proof.
  intros Hwf Ht. pose proof (classify_cases d n s) as H.
  pose proof Hwf as (Hnb & Hnk & Hpos & Hin).
  destruct (classify s) as [k b'|i|i|] eqn:Hc; simpl in Ht; [| | |done];
    injection Ht as ->.
  - destruct H as (Hk & (e & He & Hs) & Hlow).
    rewrite (classify_keys s (after (PBucket k b) s)), Hc;
      [done|done| |by exists b, e].
    simpl. rewrite <- (insert_alter _ _ _ e) by done.
    by apply (keys_insert _ b e).
  - destruct H as (Hall & (e & He & Hs) & Hlow).
    assert (key_only <$> bufs (after (PScan b) s) = key_only <$> bufs s) as Hkeys.
    { simpl. rewrite <- (insert_alter _ _ _ e) by done.
      by apply (keys_insert _ b e). }
    rewrite (classify_bucket_intro _ (b mod NBUCKET)%nat b); [done|..].
    + simpl. apply list_lookup_insert_eq. rewrite Hnk.
      apply Nat.mod_upper_bound. lia.
    + rewrite (bucket_hits_keys s _ b Hkeys).
      unfold BioSpec.bucket_hits. by rewrite He.
    + intros j y Hy Hj. simpl in Hy.
      rewrite list_lookup_insert_ne in Hy by lia.
      rewrite (bucket_hits_keys s _ y Hkeys).
      by apply (Forall_lookup_1 _ _ _ _ Hall) in Hy.
  - destruct H as (Hallb & Hall & (e & He & Hz) & Hlow).
    assert (∀ j e', bufs (after (PRecycle b) s) !! j = Some e' →
                    same_block d n e' = true → j = b) as Honly.
    { intros j e' Hj Hs. destruct (decide (j = b)) as [|Hne]; [done|].
      simpl in Hj. rewrite list_lookup_alter_ne in Hj by done.
      apply (Forall_lookup_1 _ _ _ _ Hall) in Hj. congruence. }
    assert (bufs (after (PRecycle b) s) !! b
            = Some (recycle d n (ticks s) e)) as Hb.
    { simpl. by rewrite list_lookup_alter_eq, He. }
    pose proof (classify_cases d n (after (PRecycle b) s)) as H'.
    destruct (classify (after (PRecycle b) s)) as [k' b'|i'|i'|]; simpl.
    + destruct H' as (_ & (e' & He' & Hs') & _). f_equal. eauto.
    + destruct H' as (_ & (e' & He' & Hs') & _). f_equal. eauto.
    + destruct H' as (_ & Hall' & _).
      apply (Forall_lookup_1 _ _ _ _ Hall') in Hb. revert Hb.
      unfold same_block. simpl. by rewrite !Z.eqb_refl.
    + destruct H' as (_ & Hall' & _).
      apply (Forall_lookup_1 _ _ _ _ Hall') in Hb. revert Hb.
      unfold same_block. simpl. by rewrite !Z.eqb_refl.
Qed.

Lemma after_fields p s :
  pid (after p s) = pid s ∧ ticks (after p s) = ticks s ∧
  disk (after p s) = disk s.
Proof. by destruct p. Qed.

Lemma rewrite_keeps_lock p t e : lock (rewrite_of p t e) = lock e.
Proof. by destruct p. Qed.

(** The cache a returning [bread] leaves, told from the state [bget]'s path
    leaves before the sleep-lock is taken. *)
Lemma bread_state s b s1 :
  wf s → bread s = (Ret b, s1) →
  ∃ e e1,
    target (classify s) = Some b ∧ bufs s !! b = Some e ∧ lock e = None ∧
    bufs s1 = <[b := e1]> (bufs (after (classify s) s)) ∧
    bucket s1 = bucket (after (classify s) s) ∧
    pid s1 = pid s ∧ ticks s1 = ticks s ∧
    lock e1 = Some (pid s) ∧ valid e1 = true ∧
    dev e1 = d ∧ blockno e1 = n ∧
    refcnt e1 = refcnt (rewrite_of (classify s) (ticks s) e) ∧
    time e1 = ticks s ∧
    (valid (rewrite_of (classify s) (ticks s) e) = true →
     data e1 = data e ∧ disk s1 = disk s ∧
     bget s = (Ret b, s1)).
Proof.
  intros Hwf E. rewrite bread_run in E.
  destruct (bget s) as [o0 s0] eqn:Eg.
  destruct o0 as [b0|?| |?]; try done.
  destruct (bget_inv NBUF NBUCKET d n s _ _ Hwf Eg)
    as [(_ & [=] & _)
       |(b' & eX & Ht & HeX & [(Hl & [= <-] & ->)|(_ & [=] & _)])].
  destruct (target_lookup s b0 Ht) as [e He].
  rewrite (after_lookup_eq _ s b0 e Ht He) in HeX. injection HeX as <-.
  destruct (after_fields (classify s) s) as (Hp & Hti & Hdk).
  destruct (BioSpec.after_target NBUCKET d n s b0 _ Ht
              (after_lookup_eq _ s b0 e Ht He)) as (Hd & Hn & _).
  assert (bufs (after (classify s) s) !! b0
          = Some (rewrite_of (classify s) (ticks s) e)) as HX
    by by apply after_lookup_eq.
  assert (time (rewrite_of (classify s) (ticks s) e) = ticks s) as Htime
    by by destruct (classify s).
  assert (lock e = None) as Hle
    by by rewrite <- (rewrite_keeps_lock (classify s) (ticks s) e).
  set (eX := rewrite_of (classify s) (ticks s) e) in *.
  set (X := after (classify s) s) in *.
  assert (bufs (locked b0 eX X) !! b0 = Some (with_lock (Some (pid X)) eX))
    as Hl0.
  { simpl. apply list_lookup_insert_eq. by eapply lookup_lt_Some. }
  rewrite Hl0 in E. injection E as <- <-.
  destruct (valid eX) eqn:Hv; simpl.
  - exists e, (with_lock (Some (pid X)) eX). simpl.
    rewrite Hv, Hp, Hti. repeat split; try done.
    subst eX. by destruct (classify s).
  - eexists e, _. split; [done|]. split; [done|]. split; [done|].
    split. { simpl. by rewrite list_insert_insert_eq. }
    simpl. rewrite Hp, Hti. repeat split; try done; subst eX; congruence.
Qed.

Lemma rewrite_hit s t e :
  cached s → rewrite_of (classify s) t e = touch t e.
Proof.
  intros [(k & b & ->)|(i & ->)]%cached_hit; done.
Qed.

(** X13: a block stays cached across [brelse].  After [bread] has returned
    a buffer and [brelse] has given it back, the next [bread] of the same
    block returns the same buffer with the payload it had, and does so
    without reading the disk: it is [bget] alone. *)
Theorem bread_again_hits s b s1 :
  wf s → bread s = (Ret b, s1) →
  ∃ s2 s3 e1 e3,
    bufs s1 !! b = Some e1 ∧
    brelse b s1 = (Ret tt, s2) ∧
    bget s2 = (Ret b, s3) ∧ bread s2 = (Ret b, s3) ∧
    bufs s3 !! b = Some e3 ∧ data e3 = data e1 ∧ valid e3 = true ∧
    disk s3 = disk s1.
Proof.
  intros Hwf E.
  destruct (bread_state s b s1 Hwf E)
    as (e & e1 & Ht & He & Hle & Hb1 & Hk1 & Hp1 & Hti1 & Hl1 & Hv1 & Hd1 &
        Hn1 & _).
  pose proof (wf_bread NBUF NBUCKET d n s _ _ Hwf E) as Hwf1.
  pose proof (after_lookup_eq _ s b e Ht He) as HX.
  destruct (BioSpec.after_target NBUCKET d n s b _ Ht HX) as (HdX & HnX & _).
  set (eX := rewrite_of (classify s) (ticks s) e) in *.
  set (X := after (classify s) s) in *.
  assert (bufs s1 !! b = Some e1) as H1.
  { rewrite Hb1. apply list_lookup_insert_eq. by eapply lookup_lt_Some. }
  assert (lock e1 = Some (pid s1)) as Hl1' by congruence.
  pose proof (brelse_run b e1 s1 H1 Hl1') as Er.
  set (s2 := put_trace _ _) in Er.
  assert (wf s2) as Hwf2.
  { apply (wf_bufs NBUF NBUCKET s1); [done|done|].
    simpl. by rewrite length_insert. }
  assert (cached X) as HcX.
  { exists b, eX. split; [done|]. by apply same_block_eq. }
  assert (classify s2 = classify X) as Hc2.
  { apply classify_keys; [done| |done].
    simpl. rewrite Hb1, list_insert_insert_eq.
    apply (keys_insert _ b eX); [done|simpl; congruence..]. }
  assert (target (classify s2) = Some b) as Ht2.
  { rewrite Hc2. by apply target_after. }
  assert (bufs s2 !! b = Some (released e1)) as H2.
  { simpl. apply list_lookup_insert_eq. by eapply lookup_lt_Some. }
  assert (cached s2) as Hca2.
  { exists b, (released e1). split; [done|]. by apply same_block_eq. }
  pose proof (bget_outcome NBUF NBUCKET d n s2 Hwf2) as Hg.
  rewrite Ht2 in Hg. destruct Hg as (e' & He' & Eg).
  rewrite (after_lookup_eq _ s2 b _ Ht2 H2) in He'. injection He' as <-.
  rewrite rewrite_keeps_lock in Eg. simpl lock in Eg.
  rewrite (rewrite_hit s2 _ _ Hca2) in Eg.
  set (s3 := locked _ _ _) in Eg.
  assert (bufs s3 !! b
          = Some (with_lock (Some (pid (after (classify s2) s2)))
                    (touch (ticks s2) (released e1)))) as H3.
  { simpl. apply list_lookup_insert_eq.
    rewrite (bufs_after_length NBUCKET d n). by eapply lookup_lt_Some. }
  exists s2, s3, e1,
    (with_lock (Some (pid (after (classify s2) s2)))
       (touch (ticks s2) (released e1))).
  split; [done|]. split; [done|]. split; [done|].
  split. { rewrite bread_run, Eg, H3. simpl. by rewrite Hv1. }
  split; [done|]. split; [done|]. split; [done|].
  subst s3. simpl. by rewrite after_disk.
Qed.

(** X14: [bread] followed by [brelse] gives back what it took.  With every
    count in the range of an [uint], after the pair every buffer has the
    reference count and the sleep-lock state it started with, and every
    buffer but the one returned is untouched. *)
Theorem bread_brelse_gives_back s b s1 :
  wf s → (∀ j e, bufs s !! j = Some e → 0 ≤ refcnt e < 2 ^ 32) →
  bread s = (Ret b, s1) →
  ∃ s2, brelse b s1 = (Ret tt, s2) ∧ bucket s2 = bucket s1 ∧
        ∀ j e, bufs s !! j = Some e →
          ∃ e2, bufs s2 !! j = Some e2 ∧ refcnt e2 = refcnt e ∧
                lock e2 = lock e ∧ (j ≠ b → e2 = e).
Proof.
  intros Hwf Hrange E.
  destruct (bread_state s b s1 Hwf E)
    as (e & e1 & Ht & He & Hle & Hb1 & Hk1 & Hp1 & Hti1 & Hl1 & Hv1 & Hd1 &
        Hn1 & Hr1 & _).
  pose proof (after_lookup_eq _ s b e Ht He) as HX.
  assert (bufs s1 !! b = Some e1) as H1.
  { rewrite Hb1. apply list_lookup_insert_eq. by eapply lookup_lt_Some. }
  assert (lock e1 = Some (pid s1)) as Hl1' by congruence.
  rewrite (brelse_run b e1 s1 H1 Hl1').
  eexists. split; [done|]. split; [done|]. intros j e0 Hj. simpl.
  destruct (decide (j = b)) as [->|Hne].
  - rewrite He in Hj. injection Hj as <-.
    rewrite list_lookup_insert_eq by by eapply lookup_lt_Some.
    eexists. split; [done|]. simpl. rewrite Hr1, Hle.
    split; [|done].
    pose proof (classify_cases d n s) as H.
    destruct (classify s) as [k b'|i|i|]; simpl in Ht; [| | |done];
      injection Ht as ->; simpl.
    + apply unpin_pin. by eapply Hrange.
    + apply unpin_pin. by eapply Hrange.
    + destruct H as (_ & _ & (e0 & He0 & Hz) & _).
      rewrite He in He0. injection He0 as <-. by rewrite Hz.
  - rewrite list_lookup_insert_ne by done.
    rewrite Hb1, list_lookup_insert_ne by done.
    rewrite (after_lookup_ne _ s b j Ht Hne), Hj. by exists e0.
Qed.

(** *** Through the disk and back *)

(** A [bread] that does not find the block cached takes over an unused
    buffer and fills it from the disk. *)
Lemma bread_miss s b s1 :
  wf s → ¬ cached s → bread s = (Ret b, s1) →
  ∃ e1, bufs s1 !! b = Some e1 ∧ valid e1 = true ∧ refcnt e1 = 1 ∧
        data e1 = default [] (disk s !! (d, n)) ∧
        ∃ tr, trace s1 = tr ++ [EDiskRW b false].
Proof.
  intros Hwf Hnc E. rewrite bread_run in E.
  destruct (bget s) as [o0 s0] eqn:Eg.
  destruct o0 as [b0|?| |?]; try done.
  destruct (bget_inv NBUF NBUCKET d n s _ _ Hwf Eg)
    as [(_ & [=] & _)
       |(b' & eX & Ht & HeX & [(Hl & [= <-] & ->)|(_ & [=] & _)])].
  destruct (target_lookup s b0 Ht) as [e He].
  rewrite (after_lookup_eq _ s b0 e Ht He) in HeX. injection HeX as <-.
  assert (classify s = PRecycle b0) as Hc.
  { pose proof (classify_cases d n s) as H.
    destruct (classify s) as [k b'|i|i|]; simpl in Ht; [| | |done];
      injection Ht as ->; [| |done].
    - destruct H as (_ & (e0 & He0 & Hs) & _). destruct Hnc. by exists b0, e0.
    - destruct H as (_ & (e0 & He0 & Hs) & _). destruct Hnc. by exists b0, e0. }
  rewrite Hc in E. simpl in E.
  rewrite list_lookup_insert_eq in E
    by (rewrite length_alter; by eapply lookup_lt_Some).
  simpl in E. injection E as <- <-.
  eexists. split.
  { simpl. apply list_lookup_insert_eq.
    rewrite length_insert, length_alter. by eapply lookup_lt_Some. }
  simpl. repeat split. eexists. done.
Qed.

(** X15: what [bwrite] puts on the disk is what a later [bread] gets from
    it.  With the sleep-lock held, [bwrite] goes through with one write to
    the disk and leaves every buffer and bucket as it is (the lock is not
    given up, the reference count not changed); from then on, as long as
    the disk is not written again, a [bread] of the block that does not
    find it cached returns a valid buffer with the payload that was
    written. *)
Theorem bwrite_bread_round_trip b e s :
  bufs s !! b = Some e → lock e = Some (pid s) →
  dev e = d → blockno e = n →
  ∃ s1, bwrite b s = (Ret tt, s1) ∧
        bufs s1 = bufs s ∧ bucket s1 = bucket s ∧
        trace s1 = trace s ++ [EDiskRW b true] ∧
        ∀ s2 b2 s3, wf s2 → disk s2 = disk s1 → ¬ cached s2 →
          bread s2 = (Ret b2, s3) →
          ∃ e3, bufs s3 !! b2 = Some e3 ∧ valid e3 = true ∧
                data e3 = data e.
Proof.
  intros Hb Hl Hd Hn. rewrite (bwrite_run b e) by done.
  eexists. split; [done|]. split; [done|]. split; [done|]. split; [done|].
  intros s2 b2 s3 Hwf2 Hdisk Hnc E.
  destruct (bread_miss s2 b2 s3 Hwf2 Hnc E) as (e3 & He3 & Hv & _ & Hdata & _).
  exists e3. split; [done|]. split; [done|].
  rewrite Hdata, Hdisk. simpl. by rewrite Hd, Hn, lookup_insert_eq.
Qed.
End more.

(** Both buffers are in use. *)
Definition cache_full : state :=
  mkState [0%nat]
    [mkBuf true 1 10 None 1 3 []; mkBuf true 1 11 None 2 3 []] 0 7 1 ∅ [].

Lemma cache_full_wf : BioSpec.wf 2 1 cache_full.
Proof. repeat split; [lia|]. by repeat constructor. Qed.

Lemma cache0_counts j e :
  bufs cache0 !! j = Some e → 0 ≤ refcnt e < 2 ^ 32.
Proof.
  destruct j as [|[|j]]; simpl; [| |done]; intros [= <-]; simpl; lia.
Qed.

Lemma binit_from_zeroed_witness :
  ∃ s, Bio.binit 2 1 (boot 2 1 7 1 ∅) = (Ret tt, s) ∧
       BioSpec.wf 2 1 s ∧
       (∀ k, (k < 1)%nat → bucket s !! k = Some k) ∧
       bufs s = replicate 2 zero_buf ∧
       (∀ i e, bufs s !! i = Some e →
               refcnt e = 0 ∧ time e = 0 ∧ lock e = None).
Proof. apply (binit_from_zeroed 2 1 7 1 ∅). lia. Defined.

Lemma bget_no_buffers_panics_witness :
  Bio.bget 2 1 1 12 cache_full =
    (Panic "bget: no buffers",
     put_trace (trace cache_full ++ lock_pairs 0 1 ++ [EAcquire LBcache])
       cache_full).
Proof.
  apply (bget_no_buffers_panics 2 1 1 12 cache_full).
  - exact cache_full_wf.
  - intros j e. destruct j as [|[|j]]; simpl; [| |done]; by intros [= <-].
  - intros j e. destruct j as [|[|j]]; simpl; [| |done]; by intros [= <-].
Defined.

Lemma bget_hits_in_bucket_witness :
  Bio.bget 2 1 1 10 cache2 =
    (Ret 0%nat,
     put_trace (trace cache2 ++ lock_pairs 0 1 ++ [EAcquireSleep 0])
       (put_bufs (<[0%nat := mkBuf true 1 10 (Some (pid cache2))
                               (wrap32 (0 + 1)) (ticks cache2) []]>
                    (bufs cache2)) cache2)).
Proof.
  apply (bget_hits_in_bucket 2 1 1 10 cache2 0 0 (mkBuf true 1 10 None 0 0 [])).
  - exact cache2_wf.
  - reflexivity.
  - reflexivity.
  - reflexivity.
  - intros j y _ Hj. lia.
Defined.

Lemma bget_stays_in_bounds_witness :
  (∀ o s', Bio.bget 2 1 1 10 cache0 = (o, s') →
     o ≠ Fault ∧ BioSpec.wf 2 1 s') ∧
  (∀ o s', Bio.bread 2 1 1 10 cache0 = (o, s') →
     o ≠ Fault ∧ BioSpec.wf 2 1 s').
Proof. apply (bget_stays_in_bounds 2 1 1 10 cache0). exact cache0_wf. Defined.

Lemma bget_keeps_other_buffers_witness :
  disk cache1 = disk cache0 ∧
  ∀ j e, bufs cache0 !! j = Some e →
    (Ret 0%nat ≠ Ret j → Ret 0%nat ≠ Blocked j → bufs cache1 !! j = Some e) ∧
    (refcnt e ≠ 0 →
     ∃ e', bufs cache1 !! j = Some e' ∧ dev e' = dev e ∧
           blockno e' = blockno e ∧ valid e' = valid e ∧ data e' = data e).
Proof.
  apply (bget_keeps_other_buffers 2 1 1 10 cache0 (Ret 0%nat) cache1).
  - exact cache0_wf.
  - by vm_compute.
Defined.

Lemma bget_one_buffer_per_block_witness :
  (BioSpec.cached 1 10 cache0 → ∀ j e, bufs cache0 !! j = Some e →
     ∃ e', bufs cache1 !! j = Some e' ∧ dev e' = dev e ∧
           blockno e' = blockno e) ∧
  (¬ BioSpec.cached 1 10 cache0 →
   ∀ i, Ret 0%nat = Ret i ∨ Ret 0%nat = Blocked i →
     ∀ j e', bufs cache1 !! j = Some e' →
             (same_block 1 10 e' = true ↔ j = i)).
Proof.
  apply (bget_one_buffer_per_block 2 1 1 10 cache0 (Ret 0%nat) cache1).
  - exact cache0_wf.
  - by vm_compute.
Defined.

Lemma bpin_bunpin_round_trip_witness :
  ∃ s1 s2,
    bpin 0 cache1 = (Ret tt, s1) ∧ bunpin 0 s1 = (Ret tt, s2) ∧
    bufs s1 = <[0%nat := with_refcnt (wrap32 (1 + 1))
                           (mkBuf false 1 10 (Some 1) 1 7 [])]> (bufs cache1) ∧
    bufs s2 = bufs cache1 ∧ bucket s2 = bucket cache1 ∧
    disk s2 = disk cache1 ∧
    trace s2 = trace cache1 ++ [EAcquire LBcache; ERelease LBcache;
                                EAcquire LBcache; ERelease LBcache].
Proof.
  apply (bpin_bunpin_round_trip 0 (mkBuf false 1 10 (Some 1) 1 7 []) cache1).
  - by vm_compute.
  - simpl. lia.
Defined.

Lemma bread_again_hits_witness :
  ∃ s2 s3 e1 e3,
    bufs (Bio.bread 2 1 1 10 cache0).2 !! 0%nat = Some e1 ∧
    brelse 0 (Bio.bread 2 1 1 10 cache0).2 = (Ret tt, s2) ∧
    Bio.bget 2 1 1 10 s2 = (Ret 0%nat, s3) ∧
    Bio.bread 2 1 1 10 s2 = (Ret 0%nat, s3) ∧
    bufs s3 !! 0%nat = Some e3 ∧ data e3 = data e1 ∧ valid e3 = true ∧
    disk s3 = disk (Bio.bread 2 1 1 10 cache0).2.
Proof.
  apply (bread_again_hits 2 1 1 10 cache0 0 (Bio.bread 2 1 1 10 cache0).2).
  - exact cache0_wf.
  - by vm_compute.
Defined.

Lemma bread_brelse_gives_back_witness :
  ∃ s2, brelse 0 (Bio.bread 2 1 1 10 cache0).2 = (Ret tt, s2) ∧
        bucket s2 = bucket (Bio.bread 2 1 1 10 cache0).2 ∧
        ∀ j e, bufs cache0 !! j = Some e →
          ∃ e2, bufs s2 !! j = Some e2 ∧ refcnt e2 = refcnt e ∧
                lock e2 = lock e ∧ (j ≠ 0%nat → e2 = e).
Proof.
  apply (bread_brelse_gives_back 2 1 1 10 cache0 0
           (Bio.bread 2 1 1 10 cache0).2).
  - exact cache0_wf.
  - exact cache0_counts.
  - by vm_compute.
Defined.

(** Process 1 holds buffer 0 with a payload to write. *)
Definition cache_dirty : state :=
  mkState [0%nat]
    [mkBuf true 1 10 (Some 1) 1 7 [1; 2; 3]; zero_buf] 0 7 1 ∅ [].

Lemma bwrite_bread_round_trip_witness :
  ∃ s1, bwrite 0 cache_dirty = (Ret tt, s1) ∧
        bufs s1 = bufs cache_dirty ∧ bucket s1 = bucket cache_dirty ∧
        trace s1 = trace cache_dirty ++ [EDiskRW 0 true] ∧
        ∀ s2 b2 s3, BioSpec.wf 2 1 s2 → disk s2 = disk s1 →
          ¬ BioSpec.cached 1 10 s2 →
          Bio.bread 2 1 1 10 s2 = (Ret b2, s3) →
          ∃ e3, bufs s3 !! b2 = Some e3 ∧ valid e3 = true ∧
                data e3 = [1; 2; 3].
Proof.
  apply (bwrite_bread_round_trip 2 1 1 10 0
           (mkBuf true 1 10 (Some 1) 1 7 [1; 2; 3]) cache_dirty);
    reflexivity.
Defined.

(** The payload written from [cache_dirty] comes back when the block is
    read into a cache that does not hold it. *)
Example bwrite_then_bread_elsewhere :
  ∃ s3 e3,
    Bio.bread 2 1 1 10
      (mkState [0%nat] [zero_buf; zero_buf] 0 8 2
         (disk (bwrite 0 cache_dirty).2) []) = (Ret 0%nat, s3) ∧
    bufs s3 !! 0%nat = Some e3 ∧ data e3 = [1; 2; 3].
Proof.
  eexists _, (mkBuf true 1 10 (Some 2) 1 8 [1; 2; 3]).
  split; [by vm_compute|]. split; by vm_compute.
Qed.
End BioMore.
